(** * jsoncomplete: validate-and-complete over a JSON schema

    A shallow embedding of [jsoncomplete.py].  The module validates a
    document against a Draft 4 schema and repairs it while doing so: the
    extended validator turns missing or invalid properties into signals,
    and the orchestrator ([QueristValidator.iter_errors]) answers each
    signal by writing a value into the very container the signal refers
    to, while the validator's generator is still suspended inside that
    container.

    Modelling choices.
    - Schemas are JSON trees ([json]); Python's insertion-ordered dicts
      are association lists with distinct keys.
    - Documents live in a store of dict objects ([heap]): the generator
      frames and the errors hold references ([VDict l]), and every write
      [instance[prop] = value] goes through the reference, so a container
      that was replaced in its parent is still written to by the frames
      that hold it.
    - A generator consumed by a [for] loop is a traversal that calls the
      loop body at every [yield]; the consumer of the orchestrator either
      collects every error ([Collect], as [list(v.iter_errors(doc))]) or
      raises the first one ([FailFast], as [v.validate(doc)]).
    - Python exceptions are results ([Exn]); the state survives them.
    - Numbers are integers; JSON [null] is Python's [None].
    - The base engine (jsonschema's Draft4Validator) is embedded for the
      keywords [type], [enum], [properties], [required] and [format]
      (which does nothing without a format checker); a schema that uses
      another Draft 4 validation keyword stops with [OutsideFragment].
    - A value taken from the schema or from an answer (a static default,
      an enum member) is written to the document as the object it is: the
      schema, the answers and the document then share it.  A dict that is
      such a value is an object of the store, named by its reference
      ([JRef l]) wherever it occurs; what it holds is read in the store
      and changes with every write through the document.  A dict written
      out in the tree ([JDict]) is a part of the schema that is only
      read; the embedding stops with [OutsideFragment] where one would be
      written to the document, or where a reference stands for a part of
      the schema that is read.
    - Console output ([print]) is not part of the state; rendering the
      prompt is followed as far as it can raise.
    - Strings are strings of ASCII characters; [int] stops with
      [OutsideFragment] on another character.
    - The generator contract is that of jsonschema 2.x: [iter_errors]
      walks the items of the schema in order, [descend] prefixes the path,
      and [validators.extend] replaces the handlers of [properties] and
      [required]. *)

From stdpp Require Import gmap strings list fin_maps.
From Stdlib Require Import ZArith Ascii.

Set Warnings "-register-all".

Local Open Scope Z_scope.
Local Open Scope string_scope.
Local Open Scope list_scope.

(** ** JSON values and Python primitives *)

Module Py.

Definition loc := positive.
Bind Scope positive_scope with loc.

(** A value of the schema or an answer.  [JDict] is a dict written out in
    the tree, [JRef l] the dict object at [l] in the store. *)
Inductive json : Type :=
| JNull
| JBool (b : bool)
| JInt (n : Z)
| JStr (s : string)
| JList (l : list json)
| JDict (kvs : list (string * json))
| JRef (l : loc).

(** A value of the running program: dicts are objects in the store. *)
Inductive val : Type :=
| VNull
| VBool (b : bool)
| VInt (n : Z)
| VStr (s : string)
| VList (l : list val)
| VDict (l : loc).

Abbreviation pydict := (gmap string val).
Abbreviation heap := (gmap loc (gmap string val)).

Inductive pyexn : Type :=
| KeyError
| TypeError
| ValueError
| IndexError
| AttributeError
| EOFError
| UnknownType
| OutsideFragment (keyword : string).

(** Where the embedding would have to read a part of the schema through
    a reference, or compare two dict objects by what they hold. *)
Definition shared : pyexn := OutsideFragment "shared dict".

(** [dict.get(k)] and [k in dict] on an ordered dict. *)
Fixpoint assoc {A} (k : string) (kvs : list (string * A)) : option A :=
  match kvs with
  | [] => None
  | (k', v) :: r => if String.eqb k k' then Some v else assoc k r
  end.

(** [None] for an absent key, as [dict.get] gives. *)
Definition or_none (o : option json) : json :=
  match o with Some x => x | None => JNull end.

(** [j.get(k, {})]: only dicts have [get]. *)
Definition get_or_empty (j : json) (k : string) : pyexn + json :=
  match j with
  | JDict kvs => inr (default (JDict []) (assoc k kvs))
  | JRef _ => inl shared
  | _ => inl AttributeError
  end.

(** [j.get(k)] where an absent key gives [None]. *)
Definition get_none (j : json) (k : string) : pyexn + json :=
  match j with
  | JDict kvs => inr (or_none (assoc k kvs))
  | JRef _ => inl shared
  | _ => inl AttributeError
  end.

Definition is_substring (k s : string) : bool :=
  match String.index 0 k s with Some _ => true | None => false end.

(** [j == s] for a string [s]: only that string equals it. *)
Definition is_str (s : string) (j : json) : bool :=
  match j with JStr x => String.eqb x s | _ => false end.

(** Python's [==] on schema values: [True == 1], lists and dicts by
    length and then by content, a dict object is equal to itself.  The
    result is [None] where the answer is in what two dicts hold and one
    of them is an object of the store. *)
Fixpoint json_eq (a b : json) {struct a} : option bool :=
  match a, b with
  | JNull, JNull => Some true
  | JBool x, JBool y => Some (Bool.eqb x y)
  | JBool x, JInt n | JInt n, JBool x => Some (Z.eqb (if x then 1 else 0) n)
  | JInt x, JInt y => Some (Z.eqb x y)
  | JStr x, JStr y => Some (String.eqb x y)
  | JList xs, JList ys =>
      if Nat.eqb (length xs) (length ys) then
        (fix go (xs ys : list json) : option bool :=
           match xs, ys with
           | x :: xs', y :: ys' =>
               match json_eq x y with
               | Some true => go xs' ys'
               | r => r
               end
           | _, _ => Some true
           end) xs ys
      else Some false
  | JDict xs, JDict ys =>
      if Nat.eqb (length xs) (length ys) then
        (fix go (xs : list (string * json)) : option bool :=
           match xs with
           | [] => Some true
           | (k, x) :: xs' =>
               match assoc k ys with
               | Some y =>
                   match json_eq x y with
                   | Some true => go xs'
                   | r => r
                   end
               | None => Some false
               end
           end) xs
      else Some false
  | JRef l, JRef l' => if Pos.eqb l l' then Some true else None
  | JRef _, JDict _ | JDict _, JRef _ => None
  | _, _ => Some false
  end.

(** [a in l] for a list [l]: the first element that is equal decides. *)
Fixpoint mem (a : json) (l : list json) : option bool :=
  match l with
  | [] => Some false
  | x :: r =>
      match json_eq a x with
      | Some true => Some true
      | Some false => mem a r
      | None => None
      end
  end.

Definition decided (o : option bool) : pyexn + bool :=
  match o with Some b => inr b | None => inl shared end.

(** [str in j], the test the source writes as ["default" in subschema]:
    key membership on a dict, substring on a string, element on a list. *)
Definition str_in (k : string) (j : json) : pyexn + bool :=
  match j with
  | JDict kvs => inr (bool_decide (is_Some (assoc k kvs)))
  | JStr s => inr (is_substring k s)
  | JList l => inr (existsb (is_str k) l)
  | JRef _ => inl shared
  | _ => inl TypeError
  end.

(** Truth value of a schema value; that of a dict object is in the
    store. *)
Definition truthy (j : json) : pyexn + bool :=
  match j with
  | JNull => inr false
  | JBool b => inr b
  | JInt n => inr (negb (Z.eqb n 0))
  | JStr s => inr (negb (String.eqb s ""))
  | JList l => inr (match l with [] => false | _ => true end)
  | JDict kvs => inr (match kvs with [] => false | _ => true end)
  | JRef _ => inl shared
  end.

(** [a in j] for an arbitrary answer [a]. *)
Definition json_in (a j : json) : pyexn + bool :=
  match j with
  | JList l => decided (mem a l)
  | JStr s => match a with JStr k => inr (is_substring k s) | _ => inl TypeError end
  | JDict kvs =>
      match a with
      | JStr k => inr (bool_decide (is_Some (assoc k kvs)))
      | JList _ | JDict _ | JRef _ => inl TypeError
      | _ => inr false
      end
  | JRef _ => inl shared
  | _ => inl TypeError
  end.

(** Python's [==] between a program value and a schema value. *)
Fixpoint val_eq_json (h : heap) (v : val) (j : json) {struct j} : option bool :=
  match j, v with
  | JNull, VNull => Some true
  | JBool y, VBool x => Some (Bool.eqb x y)
  | JBool y, VInt n => Some (Z.eqb n (if y then 1 else 0))
  | JInt n, VBool x => Some (Z.eqb (if x then 1 else 0) n)
  | JInt y, VInt x => Some (Z.eqb x y)
  | JStr y, VStr x => Some (String.eqb x y)
  | JList ys, VList xs =>
      if Nat.eqb (length xs) (length ys) then
        (fix go (ys : list json) (xs : list val) : option bool :=
           match ys, xs with
           | y :: ys', x :: xs' =>
               match val_eq_json h x y with
               | Some true => go ys' xs'
               | r => r
               end
           | _, _ => Some true
           end) ys xs
      else Some false
  | JDict ys, VDict l =>
      let d := h !!! l in
      if Nat.eqb (size d) (length ys) then
        (fix go (ys : list (string * json)) : option bool :=
           match ys with
           | [] => Some true
           | (k, y) :: ys' =>
               match d !! k with
               | Some x =>
                   match val_eq_json h x y with
                   | Some true => go ys'
                   | r => r
                   end
               | None => Some false
               end
           end) ys
      else Some false
  | JRef l', VDict l => if Pos.eqb l l' then Some true else None
  | _, _ => Some false
  end.

(** [inst in l] for a list [l] of schema values. *)
Fixpoint val_mem (h : heap) (inst : val) (l : list json) : option bool :=
  match l with
  | [] => Some false
  | x :: r =>
      match val_eq_json h inst x with
      | Some true => Some true
      | Some false => val_mem h inst r
      | None => None
      end
  end.

(** [x == k] for a string [k]. *)
Definition val_is_str (k : string) (x : val) : bool :=
  match x with VStr s => String.eqb s k | _ => false end.

(** [k in inst] on a program value, as in [prop not in instance]. *)
Definition has_key (h : heap) (inst : val) (k : string) : pyexn + bool :=
  match inst with
  | VDict l => inr (bool_decide (is_Some ((h !!! l : pydict) !! k)))
  | VStr s => inr (is_substring k s)
  | VList l => inr (existsb (val_is_str k) l)
  | _ => inl TypeError
  end.

(** [inst[k]] for a string [k]. *)
Definition getitem (h : heap) (inst : val) (k : string) : pyexn + val :=
  match inst with
  | VDict l =>
      match (h !!! l : pydict) !! k with
      | Some v => inr v
      | None => inl KeyError
      end
  | _ => inl TypeError
  end.

(** [inst[None]], what [_ask] evaluates when no key field was found:
    a dict built from JSON has no such key. *)
Definition getitem_none (inst : val) : pyexn + val :=
  match inst with
  | VDict _ => inl KeyError
  | _ => inl TypeError
  end.

(** [inst[k] = v]. *)
Definition setitem (h : heap) (inst : val) (k : string) (v : val) : pyexn + heap :=
  match inst with
  | VDict l => inr (<[l := <[k := v]> (h !!! l : pydict)]> h)
  | _ => inl TypeError
  end.

(** The program value that a value of the schema, or an answer, is: its
    dict objects are those of the store.  A dict written out in the tree
    has no object. *)
Fixpoint value_of (j : json) : pyexn + val :=
  match j with
  | JNull => inr VNull
  | JBool b => inr (VBool b)
  | JInt n => inr (VInt n)
  | JStr s => inr (VStr s)
  | JList l =>
      match (fix go (l : list json) : pyexn + list val :=
               match l with
               | [] => inr []
               | x :: r =>
                   match value_of x, go r with
                   | inl e, _ | _, inl e => inl e
                   | inr v, inr vs => inr (v :: vs)
                   end
               end) l with
      | inl e => inl e
      | inr vs => inr (VList vs)
      end
  | JDict _ => inl (OutsideFragment "dict of the schema")
  | JRef l => inr (VDict l)
  end.

(** Loading the elements of a list, and the entries of a dict, one after
    the other. *)
Definition inject_list {A} (f : A → heap → val * heap)
    : list A → heap → list val * heap :=
  fix go (l : list A) (h : heap) : list val * heap :=
    match l with
    | [] => ([], h)
    | x :: r =>
        let '(v, h1) := f x h in
        let '(vs, h2) := go r h1 in
        (v :: vs, h2)
    end.

Definition inject_dict {A} (f : A → heap → val * heap)
    : list (string * A) → heap → pydict * heap :=
  fix go (kvs : list (string * A)) (h : heap) : pydict * heap :=
    match kvs with
    | [] => (∅, h)
    | kv :: r =>
        let '(v, h1) := f kv.2 h in
        let '(d, h2) := go r h1 in
        (<[kv.1 := v]> d, h2)
    end.

(** Load a document into the store, as [json.load] does: every dict
    written out becomes a new object. *)
Fixpoint inject (j : json) (h : heap) {struct j} : val * heap :=
  match j with
  | JNull => (VNull, h)
  | JBool b => (VBool b, h)
  | JInt n => (VInt n, h)
  | JStr s => (VStr s, h)
  | JList l =>
      let '(vs, h') := inject_list inject l h in
      (VList vs, h')
  | JDict kvs =>
      let '(d, h') := inject_dict inject kvs h in
      let l := fresh (dom h') in
      (VDict l, <[l := d]> h')
  | JRef l => (VDict l, h)
  end.


End Py.

(** ** The base engine: jsonschema's Draft4Validator *)

Module JsonSchema.
Import Py.

(** The classes of the error model; [ValidationError] is jsonschema's own,
    the other three derive from [ExtendedValidationError]. *)
Inductive error_class : Type :=
| ValidationError
| DefaultHandler
| PropertyError
| RequiredError.

(** What the consumer reads from an error object: [path] is the deque as
    it reaches the consumer, [root_context] the pair set by [with_root]. *)
Record verror : Type := {
  e_class : error_class;
  e_property : option string;
  e_path : list string;
  e_validator : string;
  e_instance : val;
  e_schema : json;
  e_root_context : option (json * val)
}.

(** A generator run to its end: what it yielded, and the exception that
    ended it, if one did. *)
Definition stream : Type := list verror * option pyexn.

Definition done : stream := ([], None).
Definition throw (e : pyexn) : stream := ([], Some e).
Definition yield1 (e : verror) : stream := ([e], None).

Definition seq (a b : stream) : stream :=
  match a with
  | (xs, Some e) => (xs, Some e)
  | (xs, None) => (xs ++ b.1, b.2)
  end.

Definition plain (keyword : string) (inst : val) (schema : json)
    (path : list string) : verror :=
  {| e_class := ValidationError; e_property := None; e_path := path;
     e_validator := keyword; e_instance := inst; e_schema := schema;
     e_root_context := None |}.

(** [Draft4Validator.is_type]: a bool is neither integer nor number. *)
Definition is_type (inst : val) (t : json) : pyexn + bool :=
  match t with
  | JStr s =>
      if String.eqb s "array" then inr (match inst with VList _ => true | _ => false end)
      else if String.eqb s "boolean" then inr (match inst with VBool _ => true | _ => false end)
      else if String.eqb s "integer" then inr (match inst with VInt _ => true | _ => false end)
      else if String.eqb s "null" then inr (match inst with VNull => true | _ => false end)
      else if String.eqb s "number" then inr (match inst with VInt _ => true | _ => false end)
      else if String.eqb s "object" then inr (match inst with VDict _ => true | _ => false end)
      else if String.eqb s "string" then inr (match inst with VStr _ => true | _ => false end)
      else inl UnknownType
  | JList _ | JDict _ | JRef _ => inl TypeError
  | _ => inl UnknownType
  end.

Definition is_object (inst : val) : bool :=
  match inst with VDict _ => true | _ => false end.

(** [any(is_type(instance, t) for t in types)]. *)
Fixpoint any_type (inst : val) (types : list json) : pyexn + bool :=
  match types with
  | [] => inr false
  | t :: r =>
      match is_type inst t with
      | inl e => inl e
      | inr true => inr true
      | inr false => any_type inst r
      end
  end.

(** Iterating a schema value: a list gives its elements, a dict its keys. *)
Definition iterate (j : json) : pyexn + list json :=
  match j with
  | JList l => inr l
  | JDict kvs => inr (map (fun kv => JStr kv.1) kvs)
  | JStr s => inr (map (fun c => JStr (String c EmptyString)) (String.list_ascii_of_string s))
  | JRef _ => inl shared
  | _ => inl TypeError
  end.

Definition type_draft4 (types : json) (inst : val) (schema : json)
    (path : list string) : stream :=
  let types := match types with JStr _ => inr [types] | _ => iterate types end in
  match types with
  | inl e => throw e
  | inr ts =>
      match any_type inst ts with
      | inl e => throw e
      | inr true => done
      | inr false => yield1 (plain "type" inst schema path)
      end
  end.

(** [instance in enums]. *)
Definition val_in (h : heap) (inst : val) (enums : json) : pyexn + bool :=
  match enums with
  | JList l => decided (val_mem h inst l)
  | JStr s => match inst with VStr k => inr (is_substring k s) | _ => inl TypeError end
  | JDict kvs =>
      match inst with
      | VStr k => inr (bool_decide (is_Some (assoc k kvs)))
      | VList _ | VDict _ => inl TypeError
      | _ => inr false
      end
  | JRef _ => inl shared
  | _ => inl TypeError
  end.

Definition enum (h : heap) (enums : json) (inst : val) (schema : json)
    (path : list string) : stream :=
  match val_in h inst enums with
  | inl e => throw e
  | inr true => done
  | inr false => yield1 (plain "enum" inst schema path)
  end.

(** The entries of [required] the embedding follows are strings. *)
Fixpoint names (l : list json) : option (list string) :=
  match l with
  | [] => Some []
  | JStr s :: r => cons s <$> names r
  | _ :: _ => None
  end.

Definition required_names (required : json) : pyexn + list string :=
  match iterate required with
  | inl e => inl e
  | inr l => match names l with Some ps => inr ps | None => inl (OutsideFragment "required") end
  end.

(** A [for] loop over a list inside a generator. *)
Definition for_each {A} (f : A → stream) : list A → stream :=
  fix go (l : list A) : stream :=
    match l with
    | [] => done
    | x :: r => seq (f x) (go r)
    end.

(** The base [required] keyword. *)
Definition required_draft4 (h : heap) (required : json) (inst : val)
    (schema : json) (path : list string) : stream :=
  if is_object inst then
    match required_names required with
    | inl e => throw e
    | inr ps =>
        for_each (fun p =>
                    match has_key h inst p with
                    | inl e => throw e
                    | inr true => done
                    | inr false => yield1 (plain "required" inst schema path)
                    end) ps
    end
  else done.

(** The validation keywords of Draft 4 that are outside the embedding. *)
Definition other_keywords : list string :=
  ["$ref"; "additionalItems"; "additionalProperties"; "allOf"; "anyOf";
   "dependencies"; "items"; "maxItems"; "maxLength"; "maxProperties";
   "maximum"; "minItems"; "minLength"; "minProperties"; "minimum";
   "multipleOf"; "not"; "oneOf"; "pattern"; "patternProperties";
   "uniqueItems"].

Definition is_other (k : string) : bool :=
  existsb (String.eqb k) other_keywords.

(** [Draft4Validator.iter_errors(instance, _schema)] with the base
    handlers; [path] is the prefix that [descend] puts in front. *)
Fixpoint iter_errors (h : heap) (inst : val) (schema : json)
    (path : list string) {struct schema} : stream :=
  match schema with
  | JDict kvs =>
      if bool_decide (is_Some (assoc "$ref" kvs)) then throw (OutsideFragment "$ref")
      else
        for_each
          (fun kv =>
             let '(k, v) := kv in
             if String.eqb k "type" then type_draft4 v inst schema path
             else if String.eqb k "enum" then enum h v inst schema path
             else if String.eqb k "required" then required_draft4 h v inst schema path
             else if String.eqb k "properties" then
               if is_object inst then
                 match v with
                 | JDict props =>
                     for_each
                       (fun ps =>
                          let '(p, sub) := ps in
                          match has_key h inst p, getitem h inst p with
                          | inr true, inr x => iter_errors h x sub (path ++ [p])
                          | _, _ => done
                          end) props
                 | JRef _ => throw shared
                 | _ => throw AttributeError
                 end
               else done
             else if is_other k then throw (OutsideFragment k)
             else done) kvs
  | JRef _ => throw shared
  | _ => throw AttributeError
  end.

(** A fully populated instance: wherever the schema declares properties,
    the instance is an object that has every one of them. *)
Fixpoint populated (h : heap) (inst : val) (schema : json) {struct schema} : bool :=
  match schema with
  | JDict kvs =>
      forallb
        (fun kv =>
           let '(k, v) := kv in
           if String.eqb k "properties" then
             is_object inst &&
             match v with
             | JDict props =>
                 forallb
                   (fun ps =>
                      let '(p, sub) := ps in
                      match has_key h inst p, getitem h inst p with
                      | inr true, inr x => populated h x sub
                      | _, _ => false
                      end) props
             | _ => true
             end
           else true) kvs
  | _ => true
  end.

(** Conformant to the schema: the base engine reports nothing. *)
Definition conformant (h : heap) (inst : val) (schema : json) : Prop :=
  iter_errors h inst schema [] = done.

End JsonSchema.

(** ** Questions *)

Module Question.
Import Py.

(** The fields set by [Question.__init__]; [_choices] keeps the labels of
    the choice list, which the source joins into one line of text. *)
Record question : Type := {
  _default_value : json;
  _correction : bool;
  _enum : json;
  _question : json;
  _required : bool;
  _type : json;
  _choices : option (list json)
}.

Definition _max_iterations : nat := 5.

(** [dictionary and dictionary.get(choice) or choice]. *)
Definition choice_label (dictionary choice : json) : pyexn + json :=
  match truthy dictionary with
  | inl e => inl e
  | inr false => inr choice
  | inr true =>
      match dictionary with
      | JDict kvs =>
          match choice with
          | JStr k =>
              match assoc k kvs with
              | Some x =>
                  match truthy x with
                  | inl e => inl e
                  | inr b => inr (if b then x else choice)
                  end
              | None => inr choice
              end
          | JList _ | JDict _ | JRef _ => inl TypeError
          | _ => inr choice
          end
      | _ => inl AttributeError
      end
  end.

Fixpoint choice_labels (dictionary : json) (enum : list json) : pyexn + list json :=
  match enum with
  | [] => inr []
  | c :: r =>
      match choice_label dictionary c with
      | inl e => inl e
      | inr x =>
          match choice_labels dictionary r with
          | inl e => inl e
          | inr xs => inr (x :: xs)
          end
      end
  end.

Definition _create_choices_str (enum dictionary : json) : pyexn + list json :=
  match JsonSchema.iterate enum with
  | inl e => inl e
  | inr l => choice_labels dictionary l
  end.

(** [Question.__init__(default, prop_type, prop_enum, required, correction)];
    [default] is a dict when the orchestrator calls it. *)
Definition __init__ (default : list (string * json)) (prop_type prop_enum : json)
    (required correction : bool) : pyexn + question :=
  let mk choices :=
    {| _default_value := or_none (assoc "value" default);
       _correction := correction;
       _enum := prop_enum;
       _question := or_none (assoc "question" default);
       _required := required;
       _type := prop_type;
       _choices := choices |} in
  match truthy prop_enum with
  | inl e => inl e
  | inr false => inr (mk None)
  | inr true =>
      match truthy (or_none (assoc "show_choices" default)) with
      | inl e => inl e
      | inr false => inr (mk None)
      | inr true =>
          match _create_choices_str prop_enum (or_none (assoc "dictionary" default)) with
          | inl e => inl e
          | inr labels => inr (mk (Some labels))
          end
      end
  end.

(** *** [int(answer)] *)

(** The blanks that [int] strips from an ASCII string: tab to carriage
    return, and the space. *)
Definition is_space (c : ascii) : bool :=
  let n := nat_of_ascii c in
  ((9 <=? n) && (n <=? 13) || (n =? 32))%nat.

Definition digit_of (c : ascii) : option Z :=
  let n := Z.of_nat (nat_of_ascii c) in
  if ((48 <=? n) && (n <=? 57))%Z then Some (n - 48) else None.

Fixpoint strip (l : list ascii) : list ascii :=
  match l with
  | c :: r => if is_space c then strip r else l
  | [] => []
  end.

(** Decimal digits, single underscores allowed between them. *)
Fixpoint digits (acc : Z) (after_digit : bool) (l : list ascii) : option Z :=
  match l with
  | [] => if after_digit then Some acc else None
  | c :: r =>
      match digit_of c with
      | Some d => digits (10 * acc + d) true r
      | None =>
          if Ascii.eqb c "_" && after_digit then digits acc false r else None
      end
  end.

(** [int(s)] for a string of ASCII characters. *)
Definition int_of_string (s : string) : option Z :=
  let l := rev (strip (rev (strip (String.list_ascii_of_string s)))) in
  match l with
  | c :: r =>
      if Ascii.eqb c "-" then Z.opp <$> digits 0 false r
      else if Ascii.eqb c "+" then digits 0 false r
      else digits 0 false l
  | [] => None
  end.

Definition is_ascii (c : ascii) : bool := (nat_of_ascii c <? 128)%nat.

Definition ascii_only (s : string) : bool :=
  forallb is_ascii (String.list_ascii_of_string s).

(** [int(answer)]: the error is [ValueError] for a string that is not a
    number and [TypeError] for a value that cannot be one.  A string with
    a character outside ASCII may hold digits and blanks of another
    script, which [int] reads as well. *)
Definition int (answer : json) : pyexn + Z :=
  match answer with
  | JInt n => inr n
  | JBool b => inr (if b then 1 else 0)
  | JStr s =>
      if ascii_only s then
        match int_of_string s with Some n => inr n | None => inl ValueError end
      else inl (OutsideFragment "int")
  | _ => inl TypeError
  end.

(** [seq[i]] with Python's negative indices. *)
Definition index {A} (l : list A) (i : Z) : option A :=
  let n := Z.of_nat (length l) in
  if ((0 <=? i) && (i <? n))%Z then l !! Z.to_nat i
  else if ((- n <=? i) && (i <? 0))%Z then l !! Z.to_nat (n + i)
  else None.

(** [enum[i]]. *)
Definition subscript (enum : json) (i : Z) : pyexn + json :=
  match enum with
  | JList l => match index l i with Some x => inr x | None => inl IndexError end
  | JStr s =>
      match index (String.list_ascii_of_string s) i with
      | Some c => inr (JStr (String c EmptyString))
      | None => inl IndexError
      end
  | JDict _ | JRef _ => inl KeyError
  | _ => inl TypeError
  end.

(** The body of [try: answer = self._enum[int(answer)]]. *)
Definition choose (enum answer : json) : pyexn + json :=
  match int answer with
  | inl e => inl e
  | inr i => subscript enum i
  end.

(** *** The prompt

    [self._question.format(default=..., key_value=...)]: the template is
    read from left to right.  A doubled brace is a brace; a replacement
    field names one of the two keyword arguments; an empty or numbered
    field asks for a positional argument, and there is none; a brace
    without its partner is a [ValueError].  What the field becomes is a
    string whatever the value ([str] of it).  A field with an attribute,
    an index, a conversion or a format specification is outside the
    embedding. *)

Definition is_digit (c : ascii) : bool :=
  let n := nat_of_ascii c in ((48 <=? n) && (n <=? 57))%nat.

Definition is_plain (c : ascii) : bool :=
  is_ascii c &&
  negb (existsb (Ascii.eqb c) [".";  "["; "]"; "!"; ":"; "{"; "}"]%char).

(** A replacement field with the name [name]. *)
Definition replacement (name : list ascii) : pyexn + unit :=
  if negb (forallb is_plain name) then inl (OutsideFragment "format")
  else if forallb is_digit name then
    if (length name <=? 9)%nat then inl IndexError
    else inl (OutsideFragment "format")
  else
    let name := String.string_of_list_ascii name in
    if String.eqb name "default" || String.eqb name "key_value" then inr tt
    else inl KeyError.

(** [field] is the reversed name of the replacement field being read, if
    one is. *)
Fixpoint fields (field : option (list ascii)) (template : list ascii)
    : pyexn + unit :=
  match field, template with
  | None, [] => inr tt
  | None, c :: r =>
      if Ascii.eqb c "{" then
        match r with
        | c' :: r' => if Ascii.eqb c' "{" then fields None r' else fields (Some []) r
        | [] => inl ValueError
        end
      else if Ascii.eqb c "}" then
        match r with
        | c' :: r' => if Ascii.eqb c' "}" then fields None r' else inl ValueError
        | [] => inl ValueError
        end
      else fields None r
  | Some name, [] => inl ValueError
  | Some name, c :: r =>
      if Ascii.eqb c "}" then
        match replacement (rev name) with
        | inl e => inl e
        | inr _ => fields None r
        end
      else fields (Some (c :: name)) r
  end.

(** [template.format(default=default, key_value=key_value)] for what it
    raises. *)
Definition format (template : json) : pyexn + unit :=
  match template with
  | JStr t => fields None (String.list_ascii_of_string t)
  | _ => inl AttributeError
  end.

Section Ask.
(** The input source, and [_input], which the subclasses override. *)
Context {W : Type} (_input : question → W → (pyexn + json) * W).

(** The [for i in range(n)] loop of [ConsoleQuestion.ask] with its
    [else] branch. *)
Fixpoint ask_loop (n : nat) (q : question) (w : W) : (pyexn + json) * W :=
  match n with
  | O => (inr (JStr ""), w)
  | S n' =>
      match _input q w with
      | (inl e, w') => (inl e, w')
      | (inr answer, w') =>
          if is_str "\q" answer then (inr JNull, w')
          else if is_str "" answer then
            match truthy (_default_value q) with
            | inl e => (inl e, w')
            | inr true => (inr (_default_value q), w')
            | inr false =>
                if negb (_required q) then (inr answer, w')
                else ask_loop n' q w'
            end
          else
            match truthy (_enum q) with
            | inl e => (inl e, w')
            | inr true =>
                match json_in answer (_enum q) with
                | inl e => (inl e, w')
                | inr true => (inr answer, w')
                | inr false =>
                    match choose (_enum q) answer with
                    | inr x => (inr x, w')
                    | inl TypeError => ask_loop n' q w'
                    | inl e => (inl e, w')
                    end
                end
            | inr false => (inr answer, w')
            end
      end
  end.

(** [ConsoleQuestion.ask(key_value)]: the prompt is printed before the
    first answer is read. *)
Definition ask (q : question) (key_value : option val) (w : W)
    : (pyexn + json) * W :=
  match format (_question q) with
  | inl e => (inl e, w)
  | inr _ => ask_loop _max_iterations q w
  end.
End Ask.

(** *** [ConsoleQuestion]: the answers are the lines typed *)

Module ConsoleQuestion.
Definition _input (q : question) (w : list string) : (pyexn + json) * list string :=
  match w with
  | line :: rest => (inr (JStr line), rest)
  | [] => (inl EOFError, [])
  end.

Definition ask := Question.ask _input.
End ConsoleQuestion.

(** *** [AutoAnswers]: the answers are drawn at random *)

Module AutoAnswers.
(** The random source: an endless sequence of draws and a cursor. *)
Record rand : Type := { draws : nat → nat; cursor : nat }.

(** A uniform draw below [n], for [n > 0]. *)
Definition randbelow (n : nat) (r : rand) : nat * rand :=
  (draws r (cursor r) mod n, {| draws := draws r; cursor := S (cursor r) |})%nat.

(** [random.choice(seq)]. *)
Definition choice (seq : json) (r : rand) : (pyexn + json) * rand :=
  match seq with
  | JList [] | JStr "" => (inl IndexError, r)
  | JList l =>
      let '(i, r') := randbelow (length l) r in
      (match l !! i with Some x => inr x | None => inl IndexError end, r')
  | JStr s =>
      let l := String.list_ascii_of_string s in
      let '(i, r') := randbelow (length l) r in
      (match l !! i with
       | Some c => inr (JStr (String c EmptyString))
       | None => inl IndexError
       end, r')
  | JDict [] => (inl IndexError, r)
  | JDict kvs => (inl KeyError, (randbelow (length kvs) r).2)
  | JRef _ => (inl shared, r)
  | _ => (inl TypeError, r)
  end.

Definition letters : string := "abcdefghijklmnopqrstuvwxyz".

Fixpoint _random_word (length : nat) (r : rand) : string * rand :=
  match length with
  | O => ("", r)
  | S n =>
      let '(i, r1) := randbelow 26 r in
      let c := default "a"%char (String.list_ascii_of_string letters !! i) in
      let '(w, r2) := _random_word n r1 in
      (String c w, r2)
  end.

(** [_random_answer]: the keys of [mapping] are "integer", "string" and
    "bool". *)
Definition _random_answer (q : question) (r : rand) : (pyexn + json) * rand :=
  match truthy (_enum q) with
  | inl e => (inl e, r)
  | inr true => choice (_enum q) r
  | inr false =>
      match _type q with
      | JStr t =>
          if String.eqb t "integer" then
            let '(i, r') := randbelow 1001 r in (inr (JInt (Z.of_nat i)), r')
          else if String.eqb t "string" then
            let '(w, r') := _random_word 10 r in (inr (JStr w), r')
          else if String.eqb t "bool" then
            let '(i, r') := randbelow 2 r in
            (inr (JBool (bool_decide (i = 0%nat))), r')
          else (inr (JStr ""), r)
      | JList _ | JDict _ | JRef _ => (inl TypeError, r)
      | _ => (inr (JStr ""), r)
      end
  end.

Definition _input (q : question) (r : rand) : (pyexn + json) * rand :=
  _random_answer q r.

Definition ask := Question.ask _input.
End AutoAnswers.

End Question.

(** ** The orchestrator *)

Module QueristValidator.
Import Py JsonSchema Question.

(** How the caller consumes [iter_errors]: [list(v.iter_errors(doc))]
    takes every error, [v.validate(doc)] raises the first. *)
Inductive consumer : Type := Collect | FailFast.

Inductive result (A : Type) : Type :=
| Ok (a : A)
| Exn (e : pyexn)
| Raised (e : verror).
Arguments Ok {A} a.
Arguments Exn {A} e.
Arguments Raised {A} e.

(** A key of an answers dict: [True] and [1] are the same key. *)
Abbreviation pykey := (Z + string)%type.

Definition hash_key (v : val) : pyexn + pykey :=
  match v with
  | VBool b => inr (inl (if b then 1 else 0))
  | VInt n => inr (inl n)
  | VStr s => inr (inr s)
  | _ => inl TypeError
  end.

Section Orchestrator.
(** [question_class]: the input source of its questions and their [ask]. *)
Context {W : Type}.
Context (ask : question → option val → W → (pyexn + json) * W).

(** The orchestrator with the document store and the input source.
    Three fields only record what happened: [made] logs every call of
    [_make_question] with the path it was made for (the position in the
    log is the identity of the object), [asked] logs every call of
    [question.ask], and [yielded] is what a collecting consumer has
    received. *)
Record state : Type := {
  store : heap;
  _questions : gmap (list string) (option (option (nat * question) * json));
  _keys : gmap (list string) (option string);
  _answers : gmap (list string) (gmap pykey (gmap string json));
  world : W;
  made : list (list string * question);
  asked : list (question * option val);
  yielded : list verror
}.

Definition with_store (h : heap) (σ : state) : state :=
  {| store := h; _questions := _questions σ; _keys := _keys σ;
     _answers := _answers σ; world := world σ; made := made σ;
     asked := asked σ; yielded := yielded σ |}.
Definition with_questions
    (q : gmap (list string) (option (option (nat * question) * json)))
    (σ : state) : state :=
  {| store := store σ; _questions := q; _keys := _keys σ;
     _answers := _answers σ; world := world σ; made := made σ;
     asked := asked σ; yielded := yielded σ |}.
Definition with_keys (k : gmap (list string) (option string)) (σ : state) : state :=
  {| store := store σ; _questions := _questions σ; _keys := k;
     _answers := _answers σ; world := world σ; made := made σ;
     asked := asked σ; yielded := yielded σ |}.
Definition with_answers (a : gmap (list string) (gmap pykey (gmap string json)))
    (σ : state) : state :=
  {| store := store σ; _questions := _questions σ; _keys := _keys σ;
     _answers := a; world := world σ; made := made σ;
     asked := asked σ; yielded := yielded σ |}.
Definition with_world (w : W) (σ : state) : state :=
  {| store := store σ; _questions := _questions σ; _keys := _keys σ;
     _answers := _answers σ; world := w; made := made σ;
     asked := asked σ; yielded := yielded σ |}.
Definition with_made (m : list (list string * question)) (σ : state) : state :=
  {| store := store σ; _questions := _questions σ; _keys := _keys σ;
     _answers := _answers σ; world := world σ; made := m;
     asked := asked σ; yielded := yielded σ |}.
Definition with_asked (a : list (question * option val)) (σ : state) : state :=
  {| store := store σ; _questions := _questions σ; _keys := _keys σ;
     _answers := _answers σ; world := world σ; made := made σ;
     asked := a; yielded := yielded σ |}.
Definition with_yielded (y : list verror) (σ : state) : state :=
  {| store := store σ; _questions := _questions σ; _keys := _keys σ;
     _answers := _answers σ; world := world σ; made := made σ;
     asked := asked σ; yielded := y |}.

Definition M (A : Type) : Type := state → result A * state.

Definition ret {A} (a : A) : M A := fun σ => (Ok a, σ).
Definition bind {A B} (m : M A) (k : A → M B) : M B :=
  fun σ =>
    match m σ with
    | (Ok a, σ') => k a σ'
    | (Exn e, σ') => (Exn e, σ')
    | (Raised e, σ') => (Raised e, σ')
    end.
Definition throw {A} (e : pyexn) : M A := fun σ => (Exn e, σ).
Definition lift {A} (r : pyexn + A) : M A :=
  match r with inl e => throw e | inr a => ret a end.
Definition get_state : M state := fun σ => (Ok σ, σ).
Definition set_store (h : heap) : M unit := fun σ => (Ok tt, with_store h σ).
Definition set_questions
    (q : gmap (list string) (option (option (nat * question) * json))) : M unit :=
  fun σ => (Ok tt, with_questions q σ).
Definition set_keys (k : gmap (list string) (option string)) : M unit :=
  fun σ => (Ok tt, with_keys k σ).
Definition set_answers (a : gmap (list string) (gmap pykey (gmap string json)))
    : M unit :=
  fun σ => (Ok tt, with_answers a σ).
Definition log_made (path : list string) (q : question) : M nat :=
  fun σ => (Ok (length (made σ)), with_made (made σ ++ [(path, q)]) σ).

(** [yield error] to the caller. *)
Definition yield_ (c : consumer) (error : verror) : M unit :=
  match c with
  | Collect => fun σ => (Ok tt, with_yielded (yielded σ ++ [error]) σ)
  | FailFast => fun σ => (Raised error, σ)
  end.

Notation "x <- m ;; k" := (bind m (fun x => k))
  (at level 100, m at next level, right associativity).
Notation "m ;;; k" := (bind m (fun _ => k))
  (at level 100, right associativity).

(** A [for] loop over a list. *)
Definition for_each {A} (f : A → M unit) : list A → M unit :=
  fix go (l : list A) : M unit :=
    match l with
    | [] => ret tt
    | x :: r => f x ;;; go r
    end.

(** The exception that ends a generator, if one does. *)
Definition finish (s : stream) : M unit :=
  match s.2 with Some e => throw e | None => ret tt end.

(** [yield from] a generator of the base engine. *)
Definition yield_from (c : consumer) (s : stream) : M unit :=
  for_each (yield_ c) s.1 ;;; finish s.

(** *** The error model

    The validator builds every [DefaultHandler] and [RequiredError] with
    a [property], and gives every [PropertyError] a non-empty path and a
    root context. *)

Definition is_extended (error : verror) : bool :=
  match e_class error with ValidationError => false | _ => true end.

Definition get_property (error : verror) : pyexn + string :=
  match e_class error with
  | PropertyError =>
      match last (e_path error) with Some p => inr p | None => inl IndexError end
  | _ =>
      match e_property error with Some p => inr p | None => inl TypeError end
  end.

Definition get_property_schema (error : verror) : pyexn + json :=
  match e_class error with
  | PropertyError => inr (e_schema error)
  | _ =>
      match get_or_empty (e_schema error) "properties", get_property error with
      | inl e, _ | _, inl e => inl e
      | inr properties, inr p => get_or_empty properties p
      end
  end.

Definition get_root_instance (error : verror) : pyexn + val :=
  match e_class error with
  | PropertyError =>
      match e_root_context error with Some c => inr c.2 | None => inl TypeError end
  | _ => inr (e_instance error)
  end.

Definition get_root_schema (error : verror) : pyexn + json :=
  match e_class error with
  | PropertyError =>
      match e_root_context error with Some c => inr c.1 | None => inl TypeError end
  | _ => inr (e_schema error)
  end.

Definition get_property_path (error : verror) : pyexn + list string :=
  match e_class error with
  | PropertyError => inr (e_path error)
  | _ =>
      match e_property error with
      | Some p => inr (e_path error ++ [p])
      | None => inl TypeError
      end
  end.

(** *** Identity field and answers *)

(** [_get_key(properties)]: the first property whose default block has a
    true [key_field]. *)
Definition _get_key (properties : json) : pyexn + option string :=
  match properties with
  | JDict props =>
      (fix each (props : list (string * json)) : pyexn + option string :=
         match props with
         | [] => inr None
         | (prop, subschema) :: r =>
             match subschema with
             | JDict s =>
                 match assoc "default" s with
                 | Some (JDict d) =>
                     match truthy (or_none (assoc "key_field" d)) with
                     | inl e => inl e
                     | inr true => inr (Some prop)
                     | inr false => each r
                     end
                 | Some (JRef _) => inl shared
                 | _ => each r
                 end
             | JRef _ => inl shared
             | _ => each r
             end
         end) props
  | JRef _ => inl shared
  | _ => inl AttributeError
  end.

(** [question.ask(key_value)] on the orchestrator's input source. *)
Definition call_ask (q : question) (key_value : option val) : M json :=
  fun σ =>
    let '(r, w) := ask q key_value (world σ) in
    lift r (with_asked (asked σ ++ [(q, key_value)]) (with_world w σ)).

(** Lines 267-270 of [_ask]: the answers dict of the container path,
    made empty on first use. *)
Definition answers_at (key_path : list string)
    : M (gmap pykey (gmap string json)) :=
  σ <- get_state ;;
  match _answers σ !! key_path with
  | Some answers => ret answers
  | None => set_answers (<[key_path := ∅]> (_answers σ)) ;;; ret ∅
  end.

(** Lines 272-275: the key field of the container, found on first use. *)
Definition key_at (key_path : list string) (error : verror) : M (option string) :=
  σ <- get_state ;;
  match _keys σ !! key_path with
  | Some key => ret key
  | None =>
      root_schema <- lift (get_root_schema error) ;;
      properties <- lift (get_or_empty root_schema "properties") ;;
      key <- lift (_get_key properties) ;;
      set_keys (<[key_path := key]> (_keys σ)) ;;;
      ret key
  end.

(** Lines 281-296: replay the answer recorded for the identity value, or
    ask and record what is not null. *)
Definition answer_of (key_path : list string)
    (answers : gmap pykey (gmap string json)) (key_value : val) (prop : string)
    (q : question) : M json :=
  match key_value with
  | VNull => call_ask q None
  | _ =>
      kv <- lift (hash_key key_value) ;;
      σ <- get_state ;;
      yet_answered <- match answers !! kv with
                      | Some ya => ret ya
                      | None =>
                          set_answers (<[key_path := <[kv := ∅]> answers]> (_answers σ)) ;;;
                          ret ∅
                      end ;;
      match yet_answered !! prop with
      | Some a => ret a
      | None =>
          answer <- call_ask q (Some key_value) ;;
          match answer with
          | JNull => ret answer
          | _ =>
              set_answers (<[key_path := <[kv := <[prop := answer]> yet_answered]> answers]>
                             (_answers σ)) ;;;
              ret answer
          end
      end
  end.

(** [_ask(path, error, question)]. *)
Definition _ask (path : list string) (error : verror) (q : question) : M json :=
  let key_path := removelast path in
  answers <- answers_at key_path ;;
  key <- key_at key_path error ;;
  inst <- lift (get_root_instance error) ;;
  σ <- get_state ;;
  key_value <- lift (match key with
                     | Some k => getitem (store σ) inst k
                     | None => getitem_none inst
                     end) ;;
  prop <- lift (get_property error) ;;
  answer_of key_path answers key_value prop q.

(** *** [_resolve_default] *)

Definition is_default_handler (error : verror) : bool :=
  match e_class error with DefaultHandler => true | _ => false end.

Definition is_required (error : verror) : bool :=
  match e_class error with RequiredError => true | _ => false end.

(** [self._make_question(...)]: the object and its identity. *)
Definition _make_question (path : list string) (default : list (string * json))
    (prop_type prop_enum : json) (required correction : bool) : M (nat * question) :=
  q <- lift (__init__ default prop_type prop_enum required correction) ;;
  id <- log_made path q ;;
  ret (id, q).

(** Lines 244-260: the cached entry for [path], made on first use;
    [None] is the early [return False]. *)
Definition lookup_question (error : verror) (path : list string)
    (property_schema : json) : M (option (option (nat * question) * json)) :=
  σ <- get_state ;;
  match _questions σ !! path with
  | None =>
      default <- lift (get_none property_schema "default") ;;
      match default with
      | JDict d =>
          question <-
            (if bool_decide (is_Some (assoc "question" d)) then
               prop_type <- lift (get_none property_schema "type") ;;
               prop_enum <- lift (get_none property_schema "enum") ;;
               q <- _make_question path d prop_type prop_enum (is_required error)
                      (negb (is_default_handler error)) ;;
               ret (Some q)
             else ret None) ;;
          let default_value := or_none (assoc "value" d) in
          σ <- get_state ;;
          set_questions (<[path := Some (question, default_value)]> (_questions σ)) ;;;
          ret (Some (question, default_value))
      | JRef _ => throw shared
      | _ =>
          set_questions (<[path := None]> (_questions σ)) ;;;
          ret None
      end
  | Some None => throw TypeError
  | Some (Some entry) => ret (Some entry)
  end.

Definition _resolve_default (error : verror) : M bool :=
  path <- lift (get_property_path error) ;;
  property_name <- lift (get_property error) ;;
  property_schema <- lift (get_property_schema error) ;;
  entry <- lookup_question error path property_schema ;;
  match entry with
  | None => ret false
  | Some (question, default_value) =>
      value <- match question with
               | Some (_, q) => _ask path error q
               | None => ret default_value
               end ;;
      inst <- lift (get_root_instance error) ;;
      v <- lift (value_of value) ;;
      σ <- get_state ;;
      h' <- lift (setitem (store σ) inst property_name v) ;;
      set_store h' ;;;
      ret true
  end.

(** *** [iter_errors] *)

(** [isinstance(subschema, dict) and "default" in subschema]. *)
Definition has_default_key (subschema : json) : pyexn + bool :=
  match subschema with
  | JDict s => inr (bool_decide (is_Some (assoc "default" s)))
  | JRef _ => inl shared
  | _ => inr false
  end.

(** The body of the [for error in ...] loop of [iter_errors]. *)
Definition handle (c : consumer) (error : verror) : M unit :=
  if is_extended error then
    property_name <- lift (get_property error) ;;
    subschema <- lift (get_property_schema error) ;;
    inst <- lift (get_root_instance error) ;;
    has_default <- (if is_required error then lift (has_default_key subschema)
                    else ret true) ;;
    if is_required error && negb has_default then yield_ c error
    else
      _resolve_default error ;;;
      σ <- get_state ;;
      present <- lift (has_key (store σ) inst property_name) ;;
      if is_required error && negb present then yield_ c error
      else if present then
        x <- lift (getitem (store σ) inst property_name) ;;
        yield_from c (JsonSchema.iter_errors (store σ) x subschema [])
      else ret tt
  else yield_ c error.

(** An error that [validate_properties] reports to [set_defaults]. *)
Definition with_root (wrap : option (json * val)) (error : verror) : verror :=
  match wrap, e_class error with
  | Some ctx, ValidationError =>
      {| e_class := PropertyError; e_property := e_property error;
         e_path := e_path error; e_validator := e_validator error;
         e_instance := e_instance error; e_schema := e_schema error;
         e_root_context := Some ctx |}
  | _, _ => error
  end.

(** The errors of a keyword of the base engine as they reach the loop
    body: through the enclosing [set_defaults], if there is one. *)
Definition emit (c : consumer) (wrap : option (json * val)) (s : stream) : M unit :=
  for_each (fun error => handle c (with_root wrap error)) s.1 ;;; finish s.

Definition signal (cls : error_class) (keyword prop : string) (inst : val)
    (schema : json) (path : list string) : verror :=
  {| e_class := cls; e_property := Some prop; e_path := path;
     e_validator := keyword; e_instance := inst; e_schema := schema;
     e_root_context := None |}.

(** [required_default_d4]. *)
Definition required_default_d4 (c : consumer) (required : json) (inst : val)
    (schema : json) (path : list string) : M unit :=
  if is_object inst then
    ps <- lift (required_names required) ;;
    for_each
      (fun prop =>
         σ <- get_state ;;
         present <- lift (has_key (store σ) inst prop) ;;
         if present then ret tt
         else handle c (signal RequiredError "required" prop inst schema path)) ps
  else ret tt.

(** The first loop of [set_defaults]: a signal for every property that is
    absent and has a [default]. *)
Definition default_signals (c : consumer) (props : list (string * json)) (inst : val)
    (schema : json) (path : list string) : M unit :=
  for_each
    (fun ps =>
       let '(prop, subschema) := ps in
       σ <- get_state ;;
       present <- lift (has_key (store σ) inst prop) ;;
       if present then ret tt
       else
         has_default <- lift (str_in "default" subschema) ;;
         if has_default
         then handle c (signal DefaultHandler "properties" prop inst schema path)
         else ret tt) props.

(** [validate_properties], the [properties] keyword of the base engine,
    run by the extended validator: [descend] is its [descend]. *)
Definition validate_properties (descend : val → json → string → M unit)
    (props : list (string * json)) (inst : val) : M unit :=
  if is_object inst then
    for_each
      (fun ps =>
         let '(p, sub) := ps in
         σ <- get_state ;;
         match has_key (store σ) inst p, getitem (store σ) inst p with
         | inr true, inr x => descend x sub p
         | _, _ => ret tt
         end) props
  else ret tt.

(** [set_defaults(validator, properties, instance, schema)]. *)
Definition set_defaults (c : consumer) (descend : val → json → string → M unit)
    (properties : json) (inst : val) (schema : json) (path : list string) : M unit :=
  match properties with
  | JDict props =>
      default_signals c props inst schema path ;;;
      validate_properties descend props inst
  | JRef _ => throw shared
  | _ => throw AttributeError
  end.

(** [self.validator.iter_errors(instance, _schema)]: the validator that
    [_extend_with_default] builds.  [path] is the path of [inst] in the
    document, [wrap] the container and schema of the [set_defaults] this
    call was made from. *)
Fixpoint validator_iter_errors (c : consumer) (inst : val) (schema : json)
    (path : list string) (wrap : option (json * val)) {struct schema} : M unit :=
  match schema with
  | JDict kvs =>
      if bool_decide (is_Some (assoc "$ref" kvs)) then throw (OutsideFragment "$ref")
      else
        for_each
          (fun kv =>
             let '(k, v) := kv in
             if String.eqb k "type" then emit c wrap (type_draft4 v inst schema path)
             else if String.eqb k "enum" then
               σ <- get_state ;;
               emit c wrap (enum (store σ) v inst schema path)
             else if String.eqb k "required" then
               required_default_d4 c v inst schema path
             else if String.eqb k "properties" then
               set_defaults c
                 (fun x sub p =>
                    validator_iter_errors c x sub (path ++ [p]) (Some (schema, inst)))
                 v inst schema path
             else if is_other k then throw (OutsideFragment k)
             else ret tt) kvs
  | JRef _ => throw shared
  | _ => throw AttributeError
  end.

(** [QueristValidator.iter_errors(instance)] for the schema the
    orchestrator was built with. *)
Definition iter_errors (c : consumer) (schema : json) (instance : val) : M unit :=
  set_questions ∅ ;;;
  set_keys ∅ ;;;
  validator_iter_errors c instance schema [] None.

(** [QueristValidator.validate(instance)]. *)
Definition validate (schema : json) (instance : val) : M unit :=
  iter_errors FailFast schema instance.

(** *** Notions used in the statements *)

(** The answer recorded for a container path, an identity value and a
    property. *)
Definition recorded (σ : state) (key_path : list string) (k : pykey)
    (prop : string) : option json :=
  m ← _answers σ !! key_path; ya ← m !! k; ya !! prop.

(** The key field [_ask] uses for the container of [error]: the cached one,
    or the one [_get_key] finds in the container's schema. *)
Definition key_field (σ : state) (key_path : list string) (error : verror)
    : pyexn + option string :=
  match _keys σ !! key_path with
  | Some key => inr key
  | None =>
      match get_root_schema error with
      | inl e => inl e
      | inr root_schema =>
          match get_or_empty root_schema "properties" with
          | inl e => inl e
          | inr properties => _get_key properties
          end
      end
  end.

(** The identity value [_ask] reads for the container of [error]. *)
Definition identity (σ : state) (key_path : list string) (error : verror)
    : pyexn + val :=
  match key_field σ key_path error, get_root_instance error with
  | inl e, _ | _, inl e => inl e
  | inr (Some k), inr inst => getitem (store σ) inst k
  | inr None, inr inst => getitem_none inst
  end.

(** What the start of [iter_errors] does to the orchestrator. *)
Definition reset (σ : state) : state := with_keys ∅ (with_questions ∅ σ).

(** [later σ σ']: the orchestrator gets from [σ] to [σ'] by handling errors
    and starting new calls of [iter_errors]. *)
Inductive later (σ : state) : state → Prop :=
| later_refl : later σ σ
| later_handle c error r σ1 σ2 :
    later σ σ1 → handle c error σ1 = (r, σ2) → later σ σ2
| later_reset σ1 : later σ σ1 → later σ (reset σ1).

(** No recorded answer is null. *)
Definition answers_nonnull (σ : state) : Prop :=
  ∀ key_path k prop a, recorded σ key_path k prop = Some a → a ≠ JNull.

(** The result of [question.ask] as the result of the method that called
    it. *)
Definition of_ask (r : pyexn + json) : result json :=
  match r with inl e => Exn e | inr a => Ok a end.

End Orchestrator.

End QueristValidator.

(** ** An account schema

    A schema in the shape the unit tests use: a record with [fields], whose
    [account_name] marks the key field and whose other properties have a
    question, a static default or nothing. *)

Module Account.
Import Py JsonSchema Question QueristValidator.

Definition account_name_schema : json :=
  JDict [("type", JStr "string");
         ("default", JDict [("key_field", JBool true);
                            ("question", JStr "Account name?")])].

Definition account_type_enum : json := JList [JStr "OW"; JStr "CC"; JStr "SV"].

Definition account_type_default : list (string * json) :=
  [("question", JStr "Type of {key_value}?"); ("show_choices", JBool true)].

Definition account_type_keywords : list (string * json) :=
  [("enum", account_type_enum); ("default", JDict account_type_default)].

Definition initial_amount_default : list (string * json) := [("value", JInt 0)].

Definition initial_amount_keywords : list (string * json) :=
  [("type", JStr "integer"); ("default", JDict initial_amount_default)].

Definition fields_properties : list (string * json) :=
  [("account_name", account_name_schema);
   ("account_type", JDict account_type_keywords);
   ("initial_amount", JDict initial_amount_keywords);
   ("fk_owner", JDict [("type", JStr "integer")])].

(** [required] comes before [properties]: an absent required property is
    first seen by [required_default_d4]. *)
Definition fields_keywords : list (string * json) :=
  [("type", JStr "object");
   ("required", JList [JStr "account_name"; JStr "account_type"; JStr "fk_owner"]);
   ("properties", JDict fields_properties)].

Definition fields_schema : json := JDict fields_keywords.

Definition account_schema : json :=
  JDict [("type", JStr "object");
         ("properties", JDict [("fields", fields_schema);
                               ("model", JDict [("type", JStr "string")]);
                               ("pk", JDict [("type", JStr "integer")])])].

(** A record without [account_type] and [initial_amount]. *)
Definition acme : json :=
  JDict [("fields", JDict [("account_name", JStr "acme"); ("fk_owner", JInt 1)]);
         ("model", JStr "finstat.Account"); ("pk", JInt 1)].

(** The record in the store: [fields] is the dict at 1, the record the
    dict at 2. *)
Definition acme_fields : pydict :=
  {[ "account_name" := VStr "acme"; "fk_owner" := VInt 1 ]}.

Definition acme_store : heap :=
  {[ 1%positive := acme_fields;
     2%positive := {[ "fields" := VDict 1; "model" := VStr "finstat.Account";
                      "pk" := VInt 1 ]} ]}.



(** A record that has everything. *)
Definition complete : json :=
  JDict [("fields", JDict [("account_name", JStr "acme"); ("account_type", JStr "OW");
                           ("initial_amount", JInt 1000); ("fk_owner", JInt 1)]);
         ("model", JStr "finstat.Account"); ("pk", JInt 1)].

(** A schema without a key field. *)
Definition comment_properties : json :=
  JDict [("comment", JDict [("type", JStr "string");
                            ("default", JDict [("question", JStr "Comment?")])])].

Definition comment_schema : json := JDict [("properties", comment_properties)].

(** An orchestrator just built, without stored answers. *)
Definition start {W} (w : W) (h : heap) : @state W :=
  {| store := h; _questions := ∅; _keys := ∅; _answers := ∅; world := w;
     made := []; asked := []; yielded := [] |}.

(** The same with the answers of the unit test [test_answers]. *)
Definition answered {W} (w : W) (h : heap) : @state W :=
  with_answers
    {[ ["fields"] := {[ inr "acme" := {[ "account_type" := JStr "CC" ]} ]} ]}
    (start w h).

(** The question the orchestrator makes for [account_type] after a
    [RequiredError]. *)
Definition account_type_question : question :=
  {| _default_value := JNull; _correction := true; _enum := account_type_enum;
     _question := JStr "Type of {key_value}?"; _required := true; _type := JNull;
     _choices := Some [JStr "OW"; JStr "CC"; JStr "SV"] |}.

(** A question for a property of type [boolean]. *)
Definition boolean_question : question :=
  {| _default_value := JNull; _correction := false; _enum := JNull;
     _question := JStr "Active?"; _required := false; _type := JStr "boolean";
     _choices := None |}.

(** The signals for a property of [fields]. *)
Definition fields_signal (cls : error_class) (keyword prop : string) : verror :=
  signal cls keyword prop (VDict 1) fields_schema ["fields"].

End Account.

(** * Properties *)

(** ** Questions *)

Module QuestionFacts.
Import Py JsonSchema Question Account.

Example int_of_string_examples :
  int_of_string "12" = Some 12 ∧ int_of_string " -7 " = Some (-7) ∧
  int_of_string "1_000" = Some 1000 ∧ int_of_string "zz" = None ∧
  int_of_string "" = None ∧ int_of_string "1__0" = None.
Proof. repeat split; reflexivity. Qed.

(** What the loop does with one line that is no escape, not blank, not an
    enum member and not a number: [int] raises [ValueError], which the
    [except TypeError] clause does not catch. *)
Lemma ask_loop_not_a_number {W} (input : question → W → (pyexn + json) * W)
    (n : nat) (q : question) (w w' : W) (line : string) :
  input q w = (inr (JStr line), w') →
  line ≠ "\q" → line ≠ "" →
  truthy (_enum q) = inr true →
  json_in (JStr line) (_enum q) = inr false →
  ascii_only line = true →
  int_of_string line = None →
  ask_loop input (S n) q w = (inl ValueError, w').
Proof.
  intros Hin Hq Hblank Henum Hmem Hascii Hint. simpl. rewrite Hin. simpl.
  destruct (String.eqb_spec line "\q") as [->|_]; [done|].
  destruct (String.eqb_spec line "") as [->|_]; [done|].
  rewrite Henum, Hmem. unfold choose. simpl. by rewrite Hascii, Hint.
Qed.

(** C7, at the failing input: the enum is [OW, CC, SV] and the user types
    [zz]; [ask] raises [ValueError] instead of prompting again. *)
Theorem console_ask_raises_on_unknown_answer :
  ConsoleQuestion.ask account_type_question None ["zz"; "CC"]
  = (inl ValueError, ["CC"]).
Proof.
  unfold ConsoleQuestion.ask, ask, _max_iterations.
  change (format (_question account_type_question)) with (inr tt : pyexn + unit).
  by apply ask_loop_not_a_number with (line := "zz").
Qed.

(** A choice index outside the enum raises as well. *)
Example console_ask_raises_on_large_index :
  ConsoleQuestion.ask account_type_question None ["7"] = (inl IndexError, []).
Proof. reflexivity. Qed.

(** The choice list is printed from 1, the index is taken from 0. *)
Example console_ask_index_from_zero :
  ConsoleQuestion.ask account_type_question None ["1"] = (inr (JStr "CC"), []).
Proof. reflexivity. Qed.

(** The bound itself: five blank answers to a required question without a
    static default end in the empty string. *)
Example console_ask_gives_up :
  ConsoleQuestion.ask account_type_question None [""; ""; ""; ""; ""; "OW"]
  = (inr (JStr ""), ["OW"]).
Proof. reflexivity. Qed.

(** C9, at the failing input: for the declared type [boolean] no entry of
    [mapping] applies (its key is [bool]) and the answer is the empty
    string, whatever is drawn. *)
Theorem random_answer_boolean_is_empty_string (r : AutoAnswers.rand) :
  AutoAnswers._random_answer boolean_question r = (inr (JStr ""), r).
Proof. reflexivity. Qed.

(** So [ask] itself answers a boolean property with the empty string. *)
Example auto_ask_boolean (r : AutoAnswers.rand) :
  AutoAnswers.ask boolean_question None r = (inr (JStr ""), r).
Proof. reflexivity. Qed.

(** The other cases of [_random_answer] are as described. *)
Lemma random_answer_enum (q : question) (l : list json) (r : AutoAnswers.rand) :
  _enum q = JList l → l ≠ [] →
  ∃ x, (AutoAnswers._random_answer q r).1 = inr x ∧ x ∈ l.
Proof.
  intros He Hl. unfold AutoAnswers._random_answer. rewrite He.
  destruct l as [|y l']; [done|]. cbn [truthy AutoAnswers.choice].
  cbv iota.
  remember (length (y :: l')) as n eqn:Hn.
  assert (n ≠ 0)%nat as Hpos by (subst n; done).
  pose proof (Nat.mod_upper_bound (AutoAnswers.draws r (AutoAnswers.cursor r)) n Hpos) as Hi.
  unfold AutoAnswers.randbelow.
  set (i := (_ mod n)%nat) in *. clearbody i. subst n.
  destruct (lookup_lt_is_Some_2 (y :: l') i Hi) as [x Hx].
  exists x. rewrite Hx. split; [done|]. by eapply list_elem_of_lookup_2.
Qed.

Lemma random_answer_integer (q : question) (r : AutoAnswers.rand) :
  truthy (_enum q) = inr false → _type q = JStr "integer" →
  ∃ n, (AutoAnswers._random_answer q r).1 = inr (JInt n) ∧ (0 ≤ n ≤ 1000)%Z.
Proof.
  intros He Ht. unfold AutoAnswers._random_answer. rewrite He, Ht. simpl.
  eexists. split; [done|].
  pose proof (Nat.mod_upper_bound (AutoAnswers.draws r (AutoAnswers.cursor r)) 1001).
  lia.
Qed.

Definition lowercase (c : ascii) : Prop :=
  (97 ≤ nat_of_ascii c ≤ 122)%nat.

Lemma letter_lowercase (i : nat) :
  lowercase (default "a"%char
               (String.list_ascii_of_string AutoAnswers.letters !! (i mod 26)%nat)).
Proof.
  assert (i mod 26 < 26)%nat as Hi by (apply Nat.mod_upper_bound; done).
  set (k := (i mod 26)%nat) in *. clearbody k.
  do 26 (destruct k as [|k]; [unfold lowercase; vm_compute; lia|]). lia.
Qed.

Lemma random_word_spec (n : nat) (r : AutoAnswers.rand) :
  String.length (AutoAnswers._random_word n r).1 = n ∧
  Forall lowercase (String.list_ascii_of_string (AutoAnswers._random_word n r).1).
Proof.
  revert r. induction n as [|n IH]; intros r; [by split; constructor|].
  cbn [AutoAnswers._random_word AutoAnswers.randbelow].
  set (r1 := {| AutoAnswers.draws := _; AutoAnswers.cursor := _ |}).
  specialize (IH r1).
  destruct (AutoAnswers._random_word n r1) as [w r2] eqn:Hw.
  cbn [fst] in *. destruct IH as [IH1 IH2].
  cbn [String.length String.list_ascii_of_string]. split; [by rewrite IH1|].
  constructor; [apply letter_lowercase|done].
Qed.

Lemma random_answer_string (q : question) (r : AutoAnswers.rand) :
  truthy (_enum q) = inr false → _type q = JStr "string" →
  ∃ w, (AutoAnswers._random_answer q r).1 = inr (JStr w) ∧
       String.length w = 10%nat ∧ Forall lowercase (String.list_ascii_of_string w).
Proof.
  intros He Ht. unfold AutoAnswers._random_answer. rewrite He, Ht.
  change (String.eqb "string" "integer") with false.
  change (String.eqb "string" "string") with true. cbv iota.
  pose proof (random_word_spec 10 r) as [H1 H2].
  destruct (AutoAnswers._random_word 10 r) as [w r'] eqn:Hw.
  by exists w.
Qed.

End QuestionFacts.

(** ** The orchestrator *)

Module QueristValidatorFacts.
Import Py JsonSchema Question QueristValidator.

(** Induction on a schema that reaches the subschemas under
    [properties]: two levels below the schema itself. *)
Section JsonInd.
Variable P : json → Prop.
Hypothesis Hnull : P JNull.
Hypothesis Hbool : ∀ b, P (JBool b).
Hypothesis Hint : ∀ n, P (JInt n).
Hypothesis Hstr : ∀ s, P (JStr s).
Hypothesis Hlist : ∀ l, Forall P l → P (JList l).
Hypothesis Hdict : ∀ kvs, Forall (fun kv => P kv.2) kvs → P (JDict kvs).
Hypothesis Href : ∀ l, P (JRef l).

Fixpoint json_ind' (j : json) : P j :=
  match j with
  | JNull => Hnull
  | JBool b => Hbool b
  | JInt n => Hint n
  | JStr s => Hstr s
  | JList l =>
      Hlist l ((fix go (l : list json) : Forall P l :=
                  match l with
                  | [] => Forall_nil_2 P
                  | x :: r => Forall_cons_2 P x r (json_ind' x) (go r)
                  end) l)
  | JDict kvs =>
      Hdict kvs ((fix go (l : list (string * json)) : Forall (fun kv => P kv.2) l :=
                    match l with
                    | [] => Forall_nil_2 _
                    | kv :: r => Forall_cons_2 (fun kv => P kv.2) kv r (json_ind' kv.2) (go r)
                    end) kvs)
  | JRef l => Href l
  end.
End JsonInd.

(** The subschemas of a schema: the values under its [properties]. *)
Definition subschema_of (sub schema : json) : Prop :=
  ∃ kvs k props p, schema = JDict kvs ∧ (k, JDict props) ∈ kvs ∧ (p, sub) ∈ props.

Lemma schema_ind (P : json → Prop) :
  (∀ schema, (∀ sub, subschema_of sub schema → P sub) → P schema) →
  ∀ schema, P schema.
Proof.
  intros Hstep.
  assert (∀ j, P j ∧ ∀ kvs, j = JDict kvs → Forall (fun kv => P kv.2) kvs) as H.
  { induction j as [| | | |l IH|kvs IH|] using json_ind';
      try (split; [apply Hstep; intros sub (?&?&?&?&?&?); done | done]).
    assert (Forall (fun kv => P kv.2) kvs) as Hall.
    { eapply Forall_impl; [exact IH|]. by intros ? [? _]. }
    split; [|by intros ? [= <-]].
    apply Hstep. intros sub (kvs'&k&props&p&[= <-]&Hk&Hp).
    rewrite Forall_forall in IH. destruct (IH _ Hk) as [_ Hprops].
    specialize (Hprops props eq_refl). rewrite Forall_forall in Hprops.
    exact (Hprops _ Hp). }
  intros schema. apply H.
Qed.

(** *** Generators that yield nothing *)

Lemma seq_done (a b : stream) : seq a b = done ↔ a = done ∧ b = done.
Proof.
  unfold seq, done. destruct a as [xs [e|]], b as [ys o]; simpl; split.
  - intros [=].
  - intros [[=] _].
  - intros [= Hl ->]. apply app_eq_nil in Hl as [-> ->]. done.
  - intros [[= ->] [= -> ->]]. done.
Qed.

Lemma for_each_done {A} (f : A → stream) (l : list A) :
  JsonSchema.for_each f l = done ↔ Forall (fun x => f x = done) l.
Proof.
  induction l as [|x l IH]; simpl.
  - split; [constructor|done].
  - rewrite seq_done, IH, Forall_cons. done.
Qed.

(** *** What the base engine yields *)

Lemma seq_Forall (P : verror → Prop) (a b : stream) :
  Forall P a.1 → Forall P b.1 → Forall P (seq a b).1.
Proof.
  unfold seq. destruct a as [xs [e|]]; simpl; [done|].
  intros. by apply Forall_app.
Qed.

Lemma for_each_Forall {A} (P : verror → Prop) (f : A → stream) (l : list A) :
  (∀ x, x ∈ l → Forall P (f x).1) → Forall P (JsonSchema.for_each f l).1.
Proof.
  induction l as [|x l IH]; intros Hf; simpl; [constructor|].
  apply seq_Forall; [apply Hf; left|]. apply IH. intros y Hy. apply Hf. by right.
Qed.

(** Every error of the base engine is a plain [ValidationError]. *)
Lemma iter_errors_plain schema :
  ∀ h inst path,
    Forall (fun e => e_class e = ValidationError)
      (JsonSchema.iter_errors h inst schema path).1.
Proof.
  induction schema as [schema IH] using schema_ind. intros h inst path.
  destruct schema as [| | | | |kvs|]; try by constructor.
  cbn [JsonSchema.iter_errors]. case_bool_decide; [by constructor|].
  apply for_each_Forall. intros [k v] Hkv.
  destruct (String.eqb k "type").
  { unfold type_draft4. repeat case_match; by repeat constructor. }
  destruct (String.eqb k "enum").
  { unfold enum. repeat case_match; by repeat constructor. }
  destruct (String.eqb k "required").
  { unfold required_draft4. repeat case_match; try by constructor.
    apply for_each_Forall. intros p _. repeat case_match; by repeat constructor. }
  destruct (String.eqb k "properties").
  2: { destruct (is_other k); by constructor. }
  destruct (is_object inst); [|by constructor].
  destruct v as [| | | | |props|]; try by constructor.
  apply for_each_Forall. intros [p sub] Hp.
  repeat case_match; try by constructor.
  apply IH. by exists kvs, k, props, p.
Qed.

(** What may be raised to the caller: anything, or only what the base
    engine yields. *)
Abbreviation anything := (fun _ : verror => True).
Abbreviation plain_error := (fun e : verror => e_class e = ValidationError).

Section Facts.
Context {W : Type}.
Context (ask : question → option val → W → (pyexn + json) * W).

Abbreviation state := (@QueristValidator.state W).
Abbreviation M := (@QueristValidator.M W).

(** *** Runs of monadic code *)

Lemma bind_inv {A B} (m : M A) (k : A → M B) (σ σ' : state) (r : result B) :
  bind m k σ = (r, σ') →
  (∃ a σ1, m σ = (Ok a, σ1) ∧ k a σ1 = (r, σ')) ∨
  (∃ e, m σ = (Exn e, σ') ∧ r = Exn e) ∨
  (∃ e, m σ = (Raised e, σ') ∧ r = Raised e).
Proof.
  unfold bind. destruct (m σ) as [[a|e|e] σ1]; intros H.
  - left. eauto.
  - right. left. injection H as <- <-. eauto.
  - right. right. injection H as <- <-. eauto.
Qed.

(** [ensures R P m]: every run of [m] relates the state before to the
    state after by [R], and what it raises to the caller satisfies [P]. *)
Definition ensures {A} (R : state → state → Prop) (P : verror → Prop)
    (m : M A) : Prop :=
  ∀ σ r σ', m σ = (r, σ') → R σ σ' ∧ ∀ e, r = Raised e → P e.

Section Ensures.
Context (R : state → state → Prop) `{!PreOrder R} (P : verror → Prop).

Lemma ensures_ret {A} (a : A) : ensures R P (ret a).
Proof. intros σ r σ' [= <- <-]. done. Qed.

Lemma ensures_throw {A} e : ensures R P (@throw W A e).
Proof. intros σ r σ' [= <- <-]. done. Qed.

Lemma ensures_lift {A} (x : pyexn + A) : ensures R P (lift x).
Proof. destruct x; [apply ensures_throw|apply ensures_ret]. Qed.

Lemma ensures_get_state : ensures R P get_state.
Proof. intros σ r σ' [= <- <-]. done. Qed.

(** A step that only rewrites the state. *)
Lemma ensures_update {A} (a : state → A) (f : state → state) :
  (∀ σ, R σ (f σ)) → ensures R P (fun σ => (Ok (a σ), f σ)).
Proof. intros Hf σ r σ' [= <- <-]. split; [apply Hf|done]. Qed.

Lemma ensures_bind {A B} (m : M A) (k : A → M B) :
  ensures R P m → (∀ a, ensures R P (k a)) → ensures R P (bind m k).
Proof.
  intros Hm Hk σ r σ' H.
  destruct (bind_inv _ _ _ _ _ H) as [(a&σ1&H1&H2)|[(e&H1&->)|(e&H1&->)]].
  - destruct (Hm _ _ _ H1) as [? _], (Hk _ _ _ _ H2) as [? ?].
    split; [by etrans|done].
  - destruct (Hm _ _ _ H1) as [? _]. done.
  - destruct (Hm _ _ _ H1) as [? HP]. split; [done|]. intros ? [= <-]. by apply HP.
Qed.

Lemma ensures_for_each {A} (f : A → M unit) (l : list A) :
  (∀ x, x ∈ l → ensures R P (f x)) → ensures R P (for_each f l).
Proof.
  induction l as [|x l IH]; intros Hf; simpl.
  - apply ensures_ret.
  - apply ensures_bind; [apply Hf; left|].
    intros _. apply IH. intros y Hy. apply Hf. by right.
Qed.

Lemma ensures_finish (s : stream) : ensures R P (finish s).
Proof. unfold finish. destruct (s.2); [apply ensures_throw|apply ensures_ret]. Qed.

(** Whatever every run of the loop body guarantees, the extended
    validator guarantees: it changes the state, and raises, only through
    the loop body. *)
Lemma ensures_validator_iter_errors c :
  (∀ error, ensures R P (handle ask c error)) →
  ∀ schema inst path wrap,
    ensures R P (validator_iter_errors ask c inst schema path wrap).
Proof.
  intros Hh schema. induction schema as [schema IH] using schema_ind.
  intros inst path wrap.
  assert (∀ s, ensures R P (emit ask c wrap s)) as Hemit.
  { intros s. apply ensures_bind; [|intros; apply ensures_finish].
    apply ensures_for_each. intros; apply Hh. }
  destruct schema as [| | | | |kvs|]; try apply ensures_throw.
  cbn [validator_iter_errors]. case_bool_decide; [apply ensures_throw|].
  apply ensures_for_each. intros [k v] Hkv.
  destruct (String.eqb k "type"); [apply Hemit|].
  destruct (String.eqb k "enum").
  { apply ensures_bind; [apply ensures_get_state|]. intros; apply Hemit. }
  destruct (String.eqb k "required").
  { unfold required_default_d4. destruct (is_object inst); [|apply ensures_ret].
    apply ensures_bind; [apply ensures_lift|]. intros ps.
    apply ensures_for_each. intros p _.
    apply ensures_bind; [apply ensures_get_state|]. intros σ.
    apply ensures_bind; [apply ensures_lift|]. intros []; [apply ensures_ret|apply Hh]. }
  destruct (String.eqb k "properties").
  2: { destruct (is_other k); [apply ensures_throw|apply ensures_ret]. }
  unfold set_defaults, validate_properties.
  destruct v as [| | | | |props|]; try apply ensures_throw.
  apply ensures_bind.
  { apply ensures_for_each. intros [p sub] _.
    apply ensures_bind; [apply ensures_get_state|]. intros σ.
    apply ensures_bind; [apply ensures_lift|]. intros []; [apply ensures_ret|].
    apply ensures_bind; [apply ensures_lift|]. intros []; [apply Hh|apply ensures_ret]. }
  intros _. destruct (is_object inst); [|apply ensures_ret].
  apply ensures_for_each. intros [p sub] Hp.
  apply ensures_bind; [apply ensures_get_state|]. intros σ.
  destruct (has_key _ _ _) as [|[]]; try apply ensures_ret.
  destruct (getitem _ _ _); try apply ensures_ret.
  apply IH. by exists kvs, k, props, p.
Qed.

End Ensures.

(** One step of a proof that monadic code [ensures] something: through
    the control structure, down to the steps that touch the state. *)
Ltac preorder := lazymatch goal with |- PreOrder _ => apply _ | _ => idtac end.

Ltac ensures_step :=
  first
    [ apply ensures_ret; preorder | apply ensures_throw; preorder
    | apply ensures_lift; preorder | apply ensures_get_state; preorder
    | apply ensures_finish; preorder
    | apply ensures_bind; preorder; [try done|intros ?]
    | apply ensures_for_each; preorder; intros ? _
    | match goal with
      | |- ensures _ _ (match ?x with _ => _ end) => destruct x
      end ].

(** *** A document that needs nothing *)

Lemma for_each_noop {A} (f : A → M unit) (l : list A) (σ : state) :
  (∀ x, x ∈ l → f x σ = (Ok tt, σ)) → for_each f l σ = (Ok tt, σ).
Proof.
  induction l as [|x l IH]; intros Hf; simpl; [done|].
  unfold bind. rewrite Hf by left. apply IH. intros y Hy. apply Hf. by right.
Qed.

(** Where the base engine finds nothing and no declared property is
    missing, the extended validator never reaches the loop body. *)
Lemma validator_iter_errors_noop c schema :
  ∀ inst path wrap (σ : state),
    JsonSchema.iter_errors (store σ) inst schema path = done →
    populated (store σ) inst schema = true →
    validator_iter_errors ask c inst schema path wrap σ = (Ok tt, σ).
Proof.
  induction schema as [schema IH] using schema_ind.
  intros inst path wrap σ Hbase Hpop.
  destruct schema as [| | | | |kvs|]; try done.
  cbn [JsonSchema.iter_errors validator_iter_errors populated] in *.
  case_bool_decide; [done|].
  rewrite for_each_done, Forall_forall in Hbase.
  rewrite forallb_forall in Hpop. setoid_rewrite <- list_elem_of_In in Hpop.
  apply for_each_noop. intros [k v] Hkv.
  specialize (Hbase _ Hkv). specialize (Hpop _ Hkv). cbn beta iota in Hbase, Hpop.
  destruct (String.eqb k "type"); [by rewrite Hbase|].
  destruct (String.eqb k "enum").
  { unfold bind, get_state. by rewrite Hbase. }
  destruct (String.eqb k "required").
  { unfold required_draft4 in Hbase. unfold required_default_d4.
    destruct (is_object inst); [|done].
    unfold bind, lift. destruct (required_names v) as [e|ps]; [done|].
    cbn beta iota. rewrite for_each_done, Forall_forall in Hbase.
    apply for_each_noop. intros p Hp. specialize (Hbase _ Hp).
    unfold bind, get_state, lift. cbn beta iota.
    destruct (has_key (store σ) inst p) as [e|[]]; done. }
  destruct (String.eqb k "properties") eqn:Hk.
  2: { destruct (is_other k); done. }
  apply andb_true_iff in Hpop as [Hobj Hpop]. rewrite Hobj in *.
  unfold set_defaults, validate_properties. rewrite Hobj.
  destruct v as [| | | | |props|]; try done.
  rewrite for_each_done, Forall_forall in Hbase.
  rewrite forallb_forall in Hpop. setoid_rewrite <- list_elem_of_In in Hpop.
  unfold bind at 1.
  assert (default_signals ask c props inst (JDict kvs) path σ = (Ok tt, σ)) as ->.
  { apply for_each_noop. intros [p sub] Hp. specialize (Hpop _ Hp). cbn beta iota in Hpop.
    unfold bind, get_state, lift. cbn beta iota.
    destruct (has_key (store σ) inst p) as [e|[]]; done. }
  apply for_each_noop. intros [p sub] Hp.
  specialize (Hpop _ Hp). specialize (Hbase _ Hp). cbn beta iota in Hpop, Hbase.
  unfold bind, get_state. cbn beta iota.
  destruct (has_key (store σ) inst p) as [e|[]]; try done.
  destruct (getitem (store σ) inst p) as [e|x]; try done.
  apply IH; [|done..]. by exists kvs, k, props, p.
Qed.

(** *** Handling and starting calls: [later] *)

#[local] Instance later_preorder : PreOrder (@later W ask).
Proof.
  split; [intros σ; constructor|].
  intros σ1 σ2 σ3 H12 H23. induction H23; [done| |].
  - by eapply later_handle.
  - by apply later_reset.
Qed.

(** Every run of [iter_errors] is a sequence of such steps. *)
Lemma iter_errors_later c schema inst (σ σ' : state) r :
  iter_errors ask c schema inst σ = (r, σ') → later ask σ σ'.
Proof.
  unfold iter_errors, bind, set_questions, set_keys. cbn beta iota. intros H.
  transitivity (reset σ); [apply later_reset; constructor|].
  eapply (ensures_validator_iter_errors (later ask) (fun _ => True)); [|exact H].
  intros error σ1 r1 σ2 H1. split; [|done].
  eapply later_handle; [constructor|exact H1].
Qed.

(** *** [_ask] *)

(** The fields [_ask] leaves alone. *)
Definition same_document (σ σ' : state) : Prop :=
  store σ' = store σ ∧ _questions σ' = _questions σ ∧ made σ' = made σ ∧
  yielded σ' = yielded σ.

#[local] Instance same_document_preorder : PreOrder same_document.
Proof.
  split; [by intros σ|].
  intros σ1 σ2 σ3 (?&?&?&?) (?&?&?&?). unfold same_document. by repeat split; etrans.
Qed.

(** What [_ask] has done before it looks at the identity value: the
    answers dict of the container path exists, the key field may have been
    cached. *)
Definition prepared (key_path : list string) (error : verror) (σ σ' : state) : Prop :=
  store σ' = store σ ∧ _questions σ' = _questions σ ∧ made σ' = made σ ∧
  yielded σ' = yielded σ ∧ world σ' = world σ ∧ asked σ' = asked σ ∧
  _answers σ' = match _answers σ !! key_path with
                | Some _ => _answers σ
                | None => <[key_path := ∅]> (_answers σ)
                end ∧
  ∀ key, key_field σ key_path error = inr key →
         key_field σ' key_path error = inr key.

Lemma prepared_recorded key_path error (σ σ' : state) kp k p :
  prepared key_path error σ σ' → recorded σ' kp k p = recorded σ kp k p.
Proof.
  intros (_&_&_&_&_&_&Ha&_). unfold recorded. rewrite Ha.
  destruct (_answers σ !! key_path) eqn:Hk; [done|].
  destruct (decide (kp = key_path)) as [->|Hne].
  - rewrite lookup_insert_eq, Hk. simpl. by rewrite lookup_empty.
  - by rewrite lookup_insert_ne.
Qed.

Lemma prepared_answers key_path error (σ σ' : state) :
  prepared key_path error σ σ' →
  _answers σ' !! key_path = Some (default ∅ (_answers σ !! key_path)).
Proof.
  intros (_&_&_&_&_&_&Ha&_). rewrite Ha.
  destruct (_answers σ !! key_path) eqn:Hk; [done|]. by rewrite lookup_insert_eq.
Qed.

(** [_ask] up to the identity value. *)
Lemma ask_run path error q (σ : state) :
  ∃ σ2, prepared (removelast path) error σ σ2 ∧
    match identity σ (removelast path) error with
    | inl e => _ask ask path error q σ = (Exn e, σ2)
    | inr key_value =>
        match get_property error with
        | inl e => _ask ask path error q σ = (Exn e, σ2)
        | inr prop =>
            _ask ask path error q σ =
            answer_of ask (removelast path) (default ∅ (_answers σ !! removelast path))
              key_value prop q σ2
        end
    end.
Proof.
  unfold _ask, identity, key_field, answers_at, key_at.
  generalize (removelast path). intros kp.
  unfold lift, set_answers, set_keys, bind, get_state, ret, throw. cbn beta iota.
  destruct (_answers σ !! kp) as [answers|] eqn:Ha; cbn beta iota.
  all: cbn [_keys with_answers].
  all: repeat (case_match; simplify_eq/=).
  all: (eexists; split; [|reflexivity]); unfold prepared; cbn; rewrite ?Ha;
    repeat (split; [done|]); intros key'; unfold key_field; cbn;
    simplify_map_eq; try done.
  all: intros ?; repeat (case_match; simplify_eq/=); congruence.
Qed.

Lemma call_ask_run q key_value (σ : state) :
  call_ask ask q key_value σ =
  (of_ask (ask q key_value (world σ)).1,
   with_asked (asked σ ++ [(q, key_value)])
     (with_world (ask q key_value (world σ)).2 σ)).
Proof.
  unfold call_ask. destruct (ask q key_value (world σ)) as [[e|a] w]; done.
Qed.

(** Writing the answers of one identity value leaves the others alone. *)
Lemma recorded_insert (σ : state) A kp answers k ya kp' k' p' :
  A !! kp = Some answers →
  _answers σ = <[kp := <[k := ya]> answers]> A →
  recorded σ kp' k' p' =
  if decide ((kp', k') = (kp, k)) then ya !! p'
  else m ← A !! kp'; ya' ← m !! k'; ya' !! p'.
Proof.
  intros HA Ha. unfold recorded. rewrite Ha.
  destruct (decide (kp' = kp)) as [->|?].
  - rewrite lookup_insert_eq. simpl.
    destruct (decide (k' = k)) as [->|?].
    + rewrite lookup_insert_eq, decide_True; done.
    + rewrite lookup_insert_ne, decide_False, HA by congruence. done.
  - rewrite lookup_insert_ne, decide_False by congruence. done.
Qed.

Lemma recorded_lookup (σ : state) kp answers k p :
  _answers σ !! kp = Some answers →
  recorded σ kp k p = default ∅ (answers !! k) !! p.
Proof.
  intros Ha. unfold recorded. rewrite Ha. simpl.
  destruct (answers !! k); [done|]. simpl. symmetry. apply lookup_empty.
Qed.

(** [answer_of] for an identity value that is a dict key. *)
Lemma answer_of_unfold kp answers key_value k prop q (σ : state) :
  hash_key key_value = inr k →
  answer_of ask kp answers key_value prop q σ =
  let σ1 := match answers !! k with
            | Some _ => σ
            | None => with_answers (<[kp := <[k := ∅]> answers]> (_answers σ)) σ
            end in
  let ya := default ∅ (answers !! k) in
  match ya !! prop with
  | Some a => (Ok a, σ1)
  | None =>
      match call_ask ask q (Some key_value) σ1 with
      | (Ok JNull, σ') => (Ok JNull, σ')
      | (Ok a, σ') =>
          (Ok a, with_answers
                   (<[kp := <[k := <[prop := a]> ya]> answers]> (_answers σ)) σ')
      | (Exn e, σ') => (Exn e, σ')
      | (Raised e, σ') => (Raised e, σ')
      end
  end.
Proof.
  intros Hk. unfold answer_of.
  destruct key_value; simpl in Hk; try done; injection Hk as <-; cbn [hash_key];
    unfold lift, bind, ret, get_state, set_answers; cbn beta iota zeta;
    destruct (answers !! _); cbn beta iota;
    repeat (case_match; simplify_eq/=); done.
Qed.

(** A recorded answer is replayed: nothing is asked, nothing changes. *)
Lemma answer_of_hit kp answers key_value k prop q (σ : state) ya a :
  hash_key key_value = inr k → answers !! k = Some ya → ya !! prop = Some a →
  answer_of ask kp answers key_value prop q σ = (Ok a, σ).
Proof.
  intros Hk Hya Ha. rewrite (answer_of_unfold _ _ _ _ _ _ _ Hk). cbn zeta.
  rewrite Hya. simpl. by rewrite Ha.
Qed.

(** Nothing recorded for the identity value and the property: the question
    is asked, and its answer is recorded unless it is null. *)
Lemma answer_of_miss kp answers key_value k prop q (σ : state) :
  hash_key key_value = inr k →
  _answers σ !! kp = Some answers →
  recorded σ kp k prop = None →
  let out := ask q (Some key_value) (world σ) in
  ∃ σ', answer_of ask kp answers key_value prop q σ = (of_ask out.1, σ') ∧
    world σ' = out.2 ∧ asked σ' = asked σ ++ [(q, Some key_value)] ∧
    same_document σ σ' ∧ _keys σ' = _keys σ ∧
    (∀ kp' k' p', (kp', k', p') ≠ (kp, k, prop) →
       recorded σ' kp' k' p' = recorded σ kp' k' p') ∧
    recorded σ' kp k prop =
      match out.1 with
      | inl _ | inr JNull => None
      | inr a => Some a
      end.
Proof.
  intros Hk Hans Hrec out.
  rewrite (answer_of_unfold _ _ _ _ _ _ _ Hk). cbn zeta.
  set (ya := default ∅ (answers !! k)).
  set (σ1 := match answers !! k with Some _ => σ | None => _ end).
  assert (ya !! prop = None) as Hya.
  { rewrite <- Hrec. symmetry. by apply recorded_lookup. }
  assert (_answers σ1 = <[kp := <[k := ya]> answers]> (_answers σ)) as Hσ1.
  { unfold σ1, ya. destruct (answers !! k) eqn:E; [|done]. simpl.
    by rewrite (insert_id answers), (insert_id (_answers σ)). }
  assert (world σ1 = world σ ∧ asked σ1 = asked σ ∧ same_document σ σ1 ∧
          _keys σ1 = _keys σ) as (Hw&Has&Hsd&Hks).
  { unfold σ1. by destruct (answers !! k). }
  assert (∀ (σ' : state) kp' k' p',
            _answers σ' = _answers σ1 →
            recorded σ' kp' k' p' = recorded σ kp' k' p') as Hsame.
  { intros σ' kp' k' p' E. rewrite Hσ1 in E.
    rewrite (recorded_insert σ' _ _ _ _ _ _ _ _ Hans E).
    case_decide; [|done]. simplify_eq. by rewrite (recorded_lookup σ kp answers). }
  rewrite Hya, call_ask_run, Hw, Has. fold out. clearbody σ1.
  destruct Hsd as (?&?&?&?).
  destruct (out.1) as [e|a] eqn:Hout; simpl.
  { eexists; split; [done|]. repeat split; try done.
    - intros; by apply Hsame.
    - rewrite <- Hrec. by apply Hsame. }
  assert (∀ σ' : state,
            _answers σ' = <[kp := <[k := <[prop := a]> ya]> answers]> (_answers σ) →
            (∀ kp' k' p', (kp', k', p') ≠ (kp, k, prop) →
               recorded σ' kp' k' p' = recorded σ kp' k' p') ∧
            recorded σ' kp k prop = Some a) as Hnew.
  { intros σ' E. split.
    - intros kp' k' p' Hne. rewrite (recorded_insert σ' _ _ _ _ _ _ _ _ Hans E).
      case_decide; [|done]. simplify_eq.
      rewrite lookup_insert_ne by congruence. by rewrite (recorded_lookup σ kp answers).
    - rewrite (recorded_insert σ' _ _ _ _ _ _ _ _ Hans E), decide_True by done.
      by rewrite lookup_insert_eq. }
  destruct a; (eexists; split; [done|]); repeat split; try done;
    try (by intros; apply Hsame); try (by rewrite <- Hrec; apply Hsame);
    try (by intros; apply Hnew); by apply Hnew.
Qed.

(** The recorded answers only grow, and by answers that are not null. *)
Definition grows (σ σ' : state) : Prop :=
  ∀ kp k p,
    recorded σ' kp k p = recorded σ kp k p ∨
    (recorded σ kp k p = None ∧ ∃ a, recorded σ' kp k p = Some a ∧ a ≠ JNull).

#[local] Instance grows_preorder : PreOrder grows.
Proof.
  split; [by left|].
  intros σ1 σ2 σ3 H12 H23 kp k p.
  destruct (H12 kp k p) as [E12|(N1&a&E2&Ha)], (H23 kp k p) as [E23|(N2&b&E3&Hb)].
  - left. congruence.
  - right. split; [congruence|eauto].
  - right. split; [done|]. exists a. split; [congruence|done].
  - congruence.
Qed.

Lemma grows_same (σ σ' : state) : _answers σ' = _answers σ → grows σ σ'.
Proof. intros E kp k p. left. unfold recorded. by rewrite E. Qed.

Lemma of_ask_not_raised (x : pyexn + json) e : of_ask x ≠ Raised e.
Proof. by destruct x. Qed.

Lemma answer_of_changes kp answers key_value prop q (σ σ' : state) r :
  _answers σ !! kp = Some answers →
  answer_of ask kp answers key_value prop q σ = (r, σ') →
  grows σ σ' ∧ same_document σ σ' ∧ _keys σ' = _keys σ ∧ ∀ e, r ≠ Raised e.
Proof.
  intros Hans H.
  destruct (hash_key key_value) as [e|k] eqn:Hk.
  { destruct key_value; simpl in Hk; try done; unfold answer_of in H.
    - rewrite call_ask_run in H. injection H as <- <-.
      split; [by apply grows_same|]. split; [done|]. split; [done|].
      apply of_ask_not_raised.
    - injection H as <- <-. done.
    - injection H as <- <-. done. }
  destruct (recorded σ kp k prop) as [a|] eqn:Hrec.
  - pose proof Hrec as Hrec'. unfold recorded in Hrec'. rewrite Hans in Hrec'.
    simpl in Hrec'. destruct (answers !! k) as [ya|] eqn:Hya; [|done]. simpl in Hrec'.
    rewrite (answer_of_hit _ _ _ _ _ _ _ _ _ Hk Hya Hrec') in H.
    injection H as <- <-. done.
  - destruct (answer_of_miss _ _ _ _ _ q _ Hk Hans Hrec)
      as (σ''&E&_&_&Hsd&Hks&Hother&Hthis).
    rewrite E in H. injection H as <- <-.
    split; [|split; [done|split; [done|apply of_ask_not_raised]]].
    intros kp' k' p'.
    destruct (decide ((kp', k', p') = (kp, k, prop))) as [[= -> -> ->]|Hne].
    + rewrite Hthis, Hrec.
      destruct (ask q (Some key_value) (world σ)).1 as [|[]]; eauto 10.
    + left. by apply Hother.
Qed.

(** [_ask] touches neither the document nor the question cache, raises
    nothing to the caller, and only adds answers that are not null. *)
Lemma ask_changes path error q (σ σ' : state) r :
  _ask ask path error q σ = (r, σ') →
  grows σ σ' ∧ same_document σ σ' ∧ ∀ e, r ≠ Raised e.
Proof.
  intros H. destruct (ask_run path error q σ) as (σ2&Hprep&Hrun).
  assert (grows σ σ2) as Hg.
  { intros kp k p. left. by eapply prepared_recorded. }
  assert (same_document σ σ2) as Hsd.
  { destruct Hprep as (?&?&?&?&_). done. }
  destruct (identity σ (removelast path) error) as [e|key_value].
  { rewrite Hrun in H. injection H as <- <-. done. }
  destruct (get_property error) as [e|prop].
  { rewrite Hrun in H. injection H as <- <-. done. }
  rewrite Hrun in H.
  destruct (answer_of_changes _ _ _ _ _ _ _ _ (prepared_answers _ _ _ _ Hprep) H)
    as (?&?&_&?).
  split; [by etrans|]. split; [by etrans|done].
Qed.

Lemma identity_same kp error (σ σ' : state) key_value :
  store σ' = store σ →
  (∀ key, key_field σ kp error = inr key → key_field σ' kp error = inr key) →
  identity σ kp error = inr key_value → identity σ' kp error = inr key_value.
Proof.
  intros Hs Hk. unfold identity. destruct (key_field σ kp error) as [e|key]; [done|].
  rewrite (Hk key eq_refl), Hs. done.
Qed.

(** The replay of a recorded answer. *)
Lemma ask_hit path error q (σ : state) key_value k prop a :
  get_property error = inr prop →
  identity σ (removelast path) error = inr key_value →
  hash_key key_value = inr k →
  recorded σ (removelast path) k prop = Some a →
  ∃ σ', _ask ask path error q σ = (Ok a, σ') ∧
    asked σ' = asked σ ∧ world σ' = world σ ∧ _answers σ' = _answers σ ∧
    store σ' = store σ.
Proof.
  intros Hp Hid Hk Hrec.
  destruct (ask_run path error q σ) as (σ2&Hprep&Hrun).
  rewrite Hid, Hp in Hrun. exists σ2. rewrite Hrun.
  pose proof (prepared_answers _ _ _ _ Hprep) as Hans.
  destruct Hprep as (?&_&_&_&?&?&Ha&_).
  unfold recorded in Hrec.
  destruct (_answers σ !! removelast path) as [answers|] eqn:E; [|done].
  simpl in *. destruct (answers !! k) as [ya|] eqn:Hya; [|done]. simpl in Hrec.
  split; [|done]. by eapply answer_of_hit.
Qed.

(** Nothing recorded: the question is asked with the identity value. *)
Lemma ask_miss path error q (σ : state) key_value k prop :
  get_property error = inr prop →
  identity σ (removelast path) error = inr key_value →
  hash_key key_value = inr k →
  recorded σ (removelast path) k prop = None →
  let out := ask q (Some key_value) (world σ) in
  ∃ σ', _ask ask path error q σ = (of_ask out.1, σ') ∧
    world σ' = out.2 ∧ asked σ' = asked σ ++ [(q, Some key_value)] ∧
    store σ' = store σ ∧
    identity σ' (removelast path) error = inr key_value ∧
    recorded σ' (removelast path) k prop =
      match out.1 with
      | inl _ | inr JNull => None
      | inr a => Some a
      end.
Proof.
  intros Hp Hid Hk Hrec out.
  destruct (ask_run path error q σ) as (σ2&Hprep&Hrun).
  rewrite Hid, Hp in Hrun. rewrite Hrun.
  pose proof (prepared_answers _ _ _ _ Hprep) as Hans.
  rewrite <- (prepared_recorded _ _ _ _ (removelast path) k prop Hprep) in Hrec.
  destruct Hprep as (Hs&_&_&_&Hw&Has&_&Hkey).
  destruct (answer_of_miss _ _ _ _ _ q _ Hk Hans Hrec)
    as (σ'&E&Hw'&Has'&(Hs'&_)&Hks&_&Hthis).
  exists σ'. rewrite E, Hw', Has', Hw, Has, Hthis, Hw. repeat split; try done.
  - congruence.
  - apply (identity_same _ _ σ2); [done| |].
    + intros key. unfold key_field. by rewrite Hks.
    + by apply (identity_same _ _ σ).
Qed.

(** Without a key field [_ask] stops at [instance[None]], before anything
    is asked. *)
Lemma ask_without_key_field path error q (σ : state) l :
  key_field σ (removelast path) error = inr None →
  get_root_instance error = inr (VDict l) →
  ∃ σ', _ask ask path error q σ = (Exn KeyError, σ') ∧
    asked σ' = asked σ ∧ world σ' = world σ ∧ store σ' = store σ.
Proof.
  intros Hkey Hinst.
  destruct (ask_run path error q σ) as (σ2&Hprep&Hrun).
  unfold identity in Hrun. rewrite Hkey, Hinst in Hrun. simpl in Hrun.
  exists σ2. destruct Hprep as (?&_&_&_&?&?&_). done.
Qed.

(** *** The loop body *)

Section LoopBody.
Context (R : state → state → Prop) `{!PreOrder R} (P : verror → Prop).
Hypothesis Hstore : ∀ (σ : state) h, R σ (with_store h σ).
Hypothesis Hyielded :
  ∀ (σ : state) e, P e → R σ (with_yielded (yielded σ ++ [e]) σ).
Hypothesis Hask : ∀ path error q, ensures R P (_ask ask path error q).

Lemma yield_ensures c error : P error → ensures R P (yield_ c error).
Proof.
  intros HP. destruct c; intros σ r σ' [= <- <-].
  - split; [by apply Hyielded|done].
  - split; [done|]. by intros ? [= <-].
Qed.

Lemma yield_from_ensures c s : Forall P s.1 → ensures R P (yield_from c s).
Proof.
  intros HP. unfold yield_from. apply ensures_bind; preorder.
  - apply ensures_for_each; preorder. intros e He. apply yield_ensures.
    rewrite Forall_forall in HP. by apply HP.
  - intros _. apply ensures_finish; preorder.
Qed.

Lemma resolve_default_ensures error :
  (∀ path sub, ensures R P (lookup_question error path sub)) →
  ensures R P (_resolve_default ask error).
Proof.
  intros Hlq. unfold _resolve_default, set_store.
  repeat first
    [ apply Hask | apply Hlq
    | apply (ensures_update R P (fun _ => tt) (with_store _)); intros; apply Hstore
    | ensures_step ].
Qed.

Lemma handle_ensures c error :
  P error →
  (∀ h x sub, Forall P (JsonSchema.iter_errors h x sub []).1) →
  (∀ path sub, ensures R P (lookup_question error path sub)) →
  ensures R P (handle ask c error).
Proof.
  intros HP Hbase Hlq. unfold handle.
  repeat first [ by apply yield_ensures | by apply yield_from_ensures
               | by apply resolve_default_ensures | ensures_step ].
Qed.

(** The cache lookup, for a relation that does not look at the question
    cache. *)
Lemma lookup_question_ensures error path sub :
  (∀ (σ : state) q, R σ (with_questions q σ)) →
  (∀ (σ : state) m, R σ (with_made m σ)) →
  ensures R P (lookup_question error path sub).
Proof.
  intros Hq Hm. unfold lookup_question, _make_question, log_made, set_questions.
  repeat first
    [ apply (ensures_update R P (fun _ => tt) (with_questions _)); intros; apply Hq
    | apply (ensures_update R P (fun σ => length (made σ))
               (fun σ => with_made (made σ ++ _) σ)); intros; apply Hm
    | ensures_step ].
Qed.

End LoopBody.

(** *** Resolving an error on a container *)

(** The two signals of a property that is absent from its container. *)
Definition is_signal (cls : error_class) : Prop :=
  cls = DefaultHandler ∨ cls = RequiredError.

(** [instance[prop] = v] on the container [l]. *)
Definition written (l : loc) (prop : string) (v : val) (σ : state) : state :=
  with_store (<[l := <[prop := v]> (store σ !!! l)]> (store σ)) σ.

Lemma written_lookup l prop v (σ : state) :
  (store (written l prop v σ) !!! l : pydict) !! prop = Some v.
Proof.
  unfold written. cbn [store with_store].
  by rewrite lookup_total_insert_eq, lookup_insert_eq.
Qed.

Lemma written_lookup_ne l prop v (σ : state) l' prop' :
  (l', prop') ≠ (l, prop) →
  (store (written l prop v σ) !!! l' : pydict) !! prop'
  = (store σ !!! l' : pydict) !! prop'.
Proof.
  intros Hne. unfold written. cbn [store with_store].
  destruct (decide (l' = l)) as [->|Hl].
  - rewrite lookup_total_insert_eq, lookup_insert_ne; [done|congruence].
  - by rewrite lookup_total_insert_ne.
Qed.


(** Yielding changes nothing but what the caller has received. *)
Definition yields (P : verror → Prop) (σ σ' : state) : Prop :=
  store σ' = store σ ∧ _questions σ' = _questions σ ∧ _keys σ' = _keys σ ∧
  _answers σ' = _answers σ ∧ world σ' = world σ ∧ made σ' = made σ ∧
  asked σ' = asked σ ∧ ∃ ys, yielded σ' = yielded σ ++ ys ∧ Forall P ys.

#[local] Instance yields_preorder P : PreOrder (yields P).
Proof.
  split.
  - intros σ. repeat split. exists []. by rewrite app_nil_r.
  - intros σ1 σ2 σ3 (?&?&?&?&?&?&?&ys&?&?) (?&?&?&?&?&?&?&zs&?&?).
    unfold yields. repeat (split; [by etrans|]).
    exists (ys ++ zs). split; [|by apply Forall_app]. rewrite app_assoc. congruence.
Qed.

Lemma yield_from_yields P c s (σ σ' : state) r :
  Forall P s.1 → yield_from c s σ = (r, σ') →
  yields P σ σ' ∧ ∀ e, r = Raised e → P e.
Proof.
  intros HP H. eapply (yield_from_ensures (yields P) P); [..|exact H]; preorder; [|done].
  intros σ0 e He. repeat split. exists [e]. split; [done|]. by repeat constructor.
Qed.

(** The schema of a declared property, as the signals find it. *)
Lemma signal_property_schema cls keyword prop inst kvs props path sub :
  is_signal cls →
  assoc "properties" kvs = Some (JDict props) → assoc prop props = Some sub →
  get_property_schema (signal cls keyword prop inst (JDict kvs) path) = inr sub.
Proof.
  intros [-> | ->] Hprops Hsub; unfold get_property_schema; simpl;
    by rewrite Hprops; simpl; rewrite Hsub.
Qed.

(** The cache entry made for a default block without a question. *)
Lemma lookup_question_static error path s d (σ : state) :
  _questions σ !! path = None →
  assoc "default" s = Some (JDict d) → assoc "question" d = None →
  lookup_question error path (JDict s) σ =
  (Ok (Some (None, or_none (assoc "value" d))),
   with_questions (<[path := Some (None, or_none (assoc "value" d))]> (_questions σ)) σ).
Proof.
  intros Hq Hd Hn. unfold lookup_question, bind, get_state. cbn beta iota.
  rewrite Hq. simpl. rewrite Hd. simpl. rewrite Hn.
  by rewrite bool_decide_eq_false_2 by (by intros [? ?]).
Qed.


(** Resolution yields nothing and raises nothing to the caller. *)
Definition silent (σ σ' : state) : Prop := yielded σ' = yielded σ.

#[local] Instance silent_preorder : PreOrder silent.
Proof. split; [done|]. intros ??? H1 H2. unfold silent in *. congruence. Qed.

Lemma resolve_default_silent error (σ σ' : state) r :
  _resolve_default ask error σ = (r, σ') →
  yielded σ' = yielded σ ∧ ∀ e, r ≠ Raised e.
Proof.
  intros H.
  assert (ensures silent (fun _ => False) (_resolve_default ask error)) as He.
  { apply resolve_default_ensures; preorder.
    - done.
    - intros path e q σ1 r1 σ2 H1.
      destruct (ask_changes _ _ _ _ _ _ H1) as (_&(_&_&_&?)&Hnr).
      split; [done|]. intros e' ->. by destruct (Hnr e').
    - intros. apply lookup_question_ensures; preorder; done. }
  destruct (He _ _ _ H) as [Hs Hr]. split; [done|]. intros e ->. by apply (Hr e).
Qed.

Lemma lookup_question_entry error path s d (σ σ1 : state) entry :
  assoc "default" s = Some (JDict d) →
  lookup_question error path (JDict s) σ = (Ok entry, σ1) → is_Some entry.
Proof.
  intros Hd. unfold lookup_question, _make_question, log_made, set_questions, lift,
    bind, get_state, ret, throw. cbn beta iota.
  simpl. rewrite Hd. simpl.
  intros H. repeat (case_match; simplify_eq/=); eauto.
Qed.

(** Handling an error only adds answers that are not null. *)
Lemma handle_grows c error (σ σ' : state) r :
  handle ask c error σ = (r, σ') → grows σ σ'.
Proof.
  intros H. eapply (handle_ensures grows anything); [..|exact H]; preorder;
    try done; try by intros; apply grows_same.
  - intros path e q σ1 r1 σ2 H1. split; [|done]. by eapply ask_changes.
  - intros. by apply Forall_true.
  - intros. apply lookup_question_ensures; preorder; by intros; apply grows_same.
Qed.

Lemma later_grows (σ σ' : state) : later ask σ σ' → grows σ σ'.
Proof.
  induction 1 as [|c error r σ1 σ2 _ IH H|σ1 _ IH]; [done| |].
  - etrans; [exact IH|]. by eapply handle_grows.
  - etrans; [exact IH|]. by apply grows_same.
Qed.

(** *** The question cache during one call *)

(** From [σ] to [σ'] questions were made only for paths that had no cache
    entry, one for each, and every such path has an entry afterwards. *)
Definition makes (σ σ' : state) : Prop :=
  ∃ new,
    made σ' = made σ ++ new ∧ NoDup new.*1 ∧
    (∀ p, p ∈ new.*1 → _questions σ !! p = None) ∧
    (∀ p, is_Some (_questions σ !! p) ∨ p ∈ new.*1 → is_Some (_questions σ' !! p)).

Lemma makes_same (σ σ' : state) :
  made σ' = made σ → _questions σ' = _questions σ → makes σ σ'.
Proof.
  intros Hm Hq. exists []. rewrite Hm, Hq, app_nil_r. simpl.
  repeat split; [constructor|by intros ? ?%elem_of_nil|].
  intros p [?|?%elem_of_nil]; done.
Qed.

#[local] Instance makes_preorder : PreOrder makes.
Proof.
  split; [by intros σ; apply makes_same|].
  intros σ1 σ2 σ3 (n1&Hm1&Hd1&Hf1&Hc1) (n2&Hm2&Hd2&Hf2&Hc2).
  exists (n1 ++ n2). rewrite fmap_app. repeat split.
  - rewrite Hm2, Hm1. by rewrite app_assoc.
  - apply NoDup_app. repeat split; [done| |done].
    intros p Hp1 Hp2. specialize (Hf2 p Hp2).
    destruct (Hc1 p (or_intror Hp1)) as [? E]. congruence.
  - intros p [Hp|Hp]%elem_of_app; [by apply Hf1|].
    specialize (Hf2 p Hp). destruct (_questions σ1 !! p) eqn:E; [|done].
    destruct (Hc1 p (or_introl (mk_is_Some _ _ E))) as [? E']. congruence.
  - intros p Hp. apply Hc2.
    destruct Hp as [Hp|[Hp|Hp]%elem_of_app]; [left; apply Hc1; by left
                                              |left; apply Hc1; by right|by right].
Qed.

Lemma lookup_question_makes error path sub :
  ensures makes anything (lookup_question error path sub).
Proof.
  intros σ r σ' H. split; [|done].
  unfold lookup_question, _make_question, log_made, set_questions, lift,
    bind, get_state, ret, throw in H. cbn beta iota in H.
  destruct (_questions σ !! path) as [[entry|]|] eqn:Hq.
  1-2: injection H as <- <-; by apply makes_same.
  assert (∀ x, makes σ (with_questions (<[path := x]> (_questions σ)) σ)) as Hins.
  { intros x. exists []. rewrite app_nil_r. simpl.
    repeat split; [constructor|by intros ? ?%elem_of_nil|].
    intros p [Hp|?%elem_of_nil]; [|done]. rewrite lookup_insert_is_Some'. tauto. }
  assert (∀ x q,
            makes σ (with_questions (<[path := x]> (_questions σ))
                       (with_made (made σ ++ [(path, q)]) σ))) as Hnew.
  { intros x q. exists [(path, q)]. simpl. repeat split.
    - apply NoDup_singleton.
    - intros p Hp%list_elem_of_singleton. by subst.
    - intros p Hp. rewrite lookup_insert_is_Some'.
      destruct Hp as [Hp|Hp%list_elem_of_singleton]; [by right|by left]. }
  repeat (case_match; simplify_eq/=); try done; try apply Hins; try apply Hnew;
    by apply makes_same.
Qed.

Lemma handle_makes c error : ensures makes anything (handle ask c error).
Proof.
  apply handle_ensures; preorder; try done.
  - intros. by apply makes_same.
  - intros. by apply makes_same.
  - intros path e q σ r σ' H. split; [|done].
    destruct (ask_changes _ _ _ _ _ _ H) as (_&(_&?&?&_)&_). by apply makes_same.
  - intros. by apply Forall_true.
  - intros. apply lookup_question_makes.
Qed.

(** C4, amended.  During one call of [iter_errors] a question is made at
    most once for a path: the paths of the questions made in the call are
    pairwise distinct.  (The cache is emptied when the call starts, so the
    next call makes them again.) *)
Theorem question_is_made_once_per_call c schema inst (σ σ' : state) r :
  iter_errors ask c schema inst σ = (r, σ') →
  ∃ new, made σ' = made σ ++ new ∧ NoDup new.*1.
Proof.
  unfold iter_errors, bind, set_questions, set_keys. cbn beta iota. intros H.
  destruct (ensures_validator_iter_errors makes anything c (handle_makes c)
              _ _ _ _ _ _ _ H) as [(new&Hm&Hd&_) _].
  exists new. done.
Qed.

(** *** The answer cache *)

Lemma grows_recorded (σ σ' : state) kp k p a :
  grows σ σ' → recorded σ kp k p = Some a → recorded σ' kp k p = Some a.
Proof. intros Hg Hr. destruct (Hg kp k p) as [E|(E&_)]; congruence. Qed.

Lemma grows_nonnull (σ σ' : state) :
  grows σ σ' → answers_nonnull σ → answers_nonnull σ'.
Proof.
  intros Hg Hn kp k p a Hr.
  destruct (Hg kp k p) as [E|(_&b&E&Hb)]; [|congruence].
  apply (Hn kp k p). congruence.
Qed.

(** C3.  Once an answer is recorded for a container path, an identity
    value and a property, every later resolution for the same three gets
    that answer from the cache: [ask] is not called and the input source is
    not touched.  The answer is a value of the program: where it is a dict
    it is the object that was recorded, whatever has been written into
    that object since.  For another identity value, with nothing recorded,
    [ask] is called with that value and its outcome is the outcome. *)
Theorem recorded_answer_is_replayed path q prop k a v (σ1 σ2 : state) :
  recorded σ1 (removelast path) k prop = Some a →
  value_of a = inr v →
  later ask σ1 σ2 →
  (∀ error key_value,
     get_property error = inr prop →
     identity σ2 (removelast path) error = inr key_value →
     hash_key key_value = inr k →
     ∃ σ', _ask ask path error q σ2 = (Ok a, σ') ∧
       asked σ' = asked σ2 ∧ world σ' = world σ2 ∧ _answers σ' = _answers σ2) ∧
  (∀ error key_value k',
     get_property error = inr prop →
     identity σ2 (removelast path) error = inr key_value →
     hash_key key_value = inr k' → k' ≠ k →
     recorded σ2 (removelast path) k' prop = None →
     let out := ask q (Some key_value) (world σ2) in
     ∃ σ', _ask ask path error q σ2 = (of_ask out.1, σ') ∧
       world σ' = out.2 ∧ asked σ' = asked σ2 ++ [(q, Some key_value)]).
Proof.
  intros Hrec _ Hlater. pose proof (later_grows _ _ Hlater) as Hg.
  pose proof (grows_recorded _ _ _ _ _ _ Hg Hrec) as Hrec2. split.
  - intros error key_value Hp Hid Hk.
    destruct (ask_hit path error q σ2 key_value k prop a Hp Hid Hk Hrec2)
      as (σ'&?&?&?&?&_). eauto.
  - intros error key_value k' Hp Hid Hk _ Hnone out.
    destruct (ask_miss path error q σ2 key_value k' prop Hp Hid Hk Hnone)
      as (σ'&?&?&?&_). eauto.
Qed.

(** C10.  No answer in the cache is null, provided none was when the
    orchestrator was built: handling errors and starting calls keeps it so.
    An answer that is null is returned and not recorded, and the next
    resolution for the same identity value and property calls [ask]
    again. *)
Theorem recorded_answers_are_not_null (σ0 σ : state) :
  answers_nonnull σ0 →
  later ask σ0 σ →
  answers_nonnull σ ∧
  ∀ path error q key_value k prop,
    get_property error = inr prop →
    identity σ (removelast path) error = inr key_value →
    hash_key key_value = inr k →
    recorded σ (removelast path) k prop = None →
    (ask q (Some key_value) (world σ)).1 = inr JNull →
    ∃ σ', _ask ask path error q σ = (Ok JNull, σ') ∧
      answers_nonnull σ' ∧
      recorded σ' (removelast path) k prop = None ∧
      ∀ q', ∃ σ'',
        _ask ask path error q' σ' =
          (of_ask (ask q' (Some key_value) (world σ')).1, σ'') ∧
        asked σ'' = asked σ' ++ [(q', Some key_value)].
Proof.
  intros Hn0 Hlater.
  pose proof (grows_nonnull _ _ (later_grows _ _ Hlater) Hn0) as Hn.
  split; [done|].
  intros path error q key_value k prop Hp Hid Hk Hnone Hnull.
  destruct (ask_miss path error q σ key_value k prop Hp Hid Hk Hnone)
    as (σ'&Hrun&_&_&_&Hid'&Hrec').
  rewrite Hnull in Hrun, Hrec'. exists σ'. split; [done|]. split.
  { eapply grows_nonnull; [|exact Hn]. by eapply ask_changes. }
  split; [done|]. intros q'.
  destruct (ask_miss path error q' σ' key_value k prop Hp Hid' Hk Hrec')
    as (σ''&?&_&?&_). eauto.
Qed.

(** C8.  For a document that conforms to the schema and has every declared
    property, [iter_errors] yields nothing, asks nothing and writes
    nothing: it only empties the two caches of the call. *)
Theorem conformant_document_is_left_alone c schema inst (σ : state) :
  conformant (store σ) inst schema →
  populated (store σ) inst schema = true →
  iter_errors ask c schema inst σ = (Ok tt, reset σ) ∧
  yielded (reset σ) = yielded σ ∧ asked (reset σ) = asked σ ∧
  world (reset σ) = world σ ∧ store (reset σ) = store σ ∧
  _answers (reset σ) = _answers σ ∧ made (reset σ) = made σ.
Proof.
  intros Hconf Hpop. split; [|done].
  unfold iter_errors, bind, set_questions, set_keys. cbn beta iota.
  by apply validator_iter_errors_noop.
Qed.

(** *** The loop body, step by step *)

(** [handle] as one case analysis. *)
Lemma handle_unfold c error (σ : state) :
  handle ask c error σ =
  if is_extended error then
    match get_property error with
    | inl e => (Exn e, σ)
    | inr pn =>
        match get_property_schema error with
        | inl e => (Exn e, σ)
        | inr sub =>
            match get_root_instance error with
            | inl e => (Exn e, σ)
            | inr inst =>
                match (if is_required error then has_default_key sub else inr true) with
                | inl e => (Exn e, σ)
                | inr false => yield_ c error σ
                | inr true =>
                    match _resolve_default ask error σ with
                    | (Ok _, σ1) =>
                        match has_key (store σ1) inst pn with
                        | inl e => (Exn e, σ1)
                        | inr present =>
                            if is_required error && negb present then yield_ c error σ1
                            else if present then
                              match getitem (store σ1) inst pn with
                              | inl e => (Exn e, σ1)
                              | inr x =>
                                  yield_from c
                                    (JsonSchema.iter_errors (store σ1) x sub []) σ1
                              end
                            else (Ok tt, σ1)
                        end
                    | (Exn e, σ1) => (Exn e, σ1)
                    | (Raised e, σ1) => (Raised e, σ1)
                    end
                end
            end
        end
    end
  else yield_ c error σ.
Proof.
  unfold handle. destruct (is_extended error); [|done].
  unfold bind at 1. destruct (get_property error) as [e|pn]; [done|].
  unfold lift at 1, ret at 1. cbn beta iota.
  unfold bind at 1. destruct (get_property_schema error) as [e|sub]; [done|].
  unfold lift at 1, ret at 1. cbn beta iota.
  unfold bind at 1. destruct (get_root_instance error) as [e|inst]; [done|].
  unfold lift at 1, ret at 1. cbn beta iota.
  unfold bind at 1.
  assert ((if is_required error then lift (has_default_key sub) else ret true) σ
          = lift (if is_required error then has_default_key sub else inr true) σ) as ->
    by (by destruct (is_required error)).
  destruct (if is_required error then has_default_key sub else inr true)
    as [e|has_default] eqn:Hd; [done|].
  unfold lift at 1, ret at 1. cbn beta iota.
  assert (is_required error && negb has_default = negb has_default) as ->.
  { destruct (is_required error); [done|]. by injection Hd as <-. }
  destruct has_default; [|done]. cbn [negb].
  unfold bind at 1. destruct (_resolve_default ask error σ) as [[b|e|e] σ1]; try done.
  unfold bind at 1, get_state at 1. cbn beta iota.
  unfold bind at 1. destruct (has_key (store σ1) inst pn) as [e|present]; [done|].
  unfold lift at 1, ret at 1. cbn beta iota.
  destruct (is_required error && negb present); [done|].
  destruct present; [|done].
  unfold bind at 1. by destruct (getitem (store σ1) inst pn).
Qed.

(** [_resolve_default] for an error on a container: the cache lookup, the
    value, the write. *)
Lemma resolve_default_unfold error path pn sub l (σ : state) :
  get_property_path error = inr path → get_property error = inr pn →
  get_property_schema error = inr sub → get_root_instance error = inr (VDict l) →
  _resolve_default ask error σ =
  bind (lookup_question error path sub)
    (fun entry =>
       match entry with
       | None => ret false
       | Some (question, default_value) =>
           bind (match question with
                 | Some (_, q) => _ask ask path error q
                 | None => ret default_value
                 end)
             (fun value σ =>
                match value_of value with
                | inl e => (Exn e, σ)
                | inr v => (Ok true, written l pn v σ)
                end)
       end) σ.
Proof.
  intros Hpath Hpn Hsub Hinst. unfold _resolve_default. rewrite Hpath, Hpn, Hsub, Hinst.
  unfold lift, bind, ret, get_state, set_store, written, setitem. cbn beta iota.
  destruct (lookup_question error path sub σ) as [[[[[[id q]|] dv]|]|e|e] σ1]; try done.
  - destruct (_ask ask path error q σ1) as [[value|e|e] σ2]; try done.
    by destruct (value_of value).
  - by destruct (value_of dv).
Qed.

(** The cache lookup changes the question cache and the log of questions
    made, nothing else. *)
Lemma lookup_question_fields error path sub (σ σ' : state) r :
  lookup_question error path sub σ = (r, σ') →
  store σ' = store σ ∧ _keys σ' = _keys σ ∧ _answers σ' = _answers σ ∧
  world σ' = world σ ∧ asked σ' = asked σ ∧ yielded σ' = yielded σ ∧
  ∀ e, r ≠ Raised e.
Proof.
  unfold lookup_question, _make_question, log_made, set_questions, lift,
    bind, get_state, ret, throw. cbn beta iota.
  intros H. repeat (case_match; simplify_eq/=); done.
Qed.

(** The only write of [_resolve_default] is the property of the error, in
    the container of the error. *)
Lemma resolve_default_store error (σ σ' : state) r :
  _resolve_default ask error σ = (r, σ') →
  (store σ' = store σ ∧ r ≠ Ok true) ∨
  ∃ l pn v σ2,
    get_root_instance error = inr (VDict l) ∧ get_property error = inr pn ∧
    store σ2 = store σ ∧ σ' = written l pn v σ2 ∧ r = Ok true.
Proof.
  intros H. unfold _resolve_default in H.
  destruct (get_property_path error) as [e|path]; [injection H as <- <-; by left|].
  destruct (get_property error) as [e|pn] eqn:Hpn; [injection H as <- <-; by left|].
  destruct (get_property_schema error) as [e|sub]; [injection H as <- <-; by left|].
  unfold lift at 1 2 3, bind at 1 2 3, ret at 1 2 3 in H. cbn beta iota in H.
  apply bind_inv in H as [(entry&σ1&Hlq&H)|[(e&Hlq&->)|(e&Hlq&->)]];
    destruct (lookup_question_fields _ _ _ _ _ _ Hlq) as (Hs&_); [|by left..].
  destruct entry as [[question dv]|]; [|injection H as <- <-; by left].
  apply bind_inv in H as [(value&σ2&Hv&H)|[(e&Hv&->)|(e&Hv&->)]].
  2-3: left; split; [|done]; destruct question as [[id q]|];
    [|unfold ret in Hv; congruence];
    destruct (ask_changes _ _ _ _ _ _ Hv) as (_&(Hs2&_)&_); congruence.
  assert (store σ2 = store σ) as Hs2.
  { destruct question as [[id q]|]; [|unfold ret in Hv; congruence].
    destruct (ask_changes _ _ _ _ _ _ Hv) as (_&(Hs2&_)&_). congruence. }
  unfold lift, bind, ret, throw, get_state, set_store, setitem in H.
  cbn beta iota in H.
  destruct (get_root_instance error) as [e|inst]; [injection H as <- <-; by left|].
  destruct (value_of value) as [e|v]; [injection H as <- <-; by left|].
  destruct inst; simplify_eq/=; try by left.
  right. by eexists _, _, v, σ2.
Qed.

(** [_resolve_default] returns [True] when it has written the property of
    the error, in the container of the error; when it returns [False] or
    ends in an exception the document is as it was. *)
Theorem resolve_default_returns_true_when_it_wrote error (σ : state) :
  let run := _resolve_default ask error σ in
  match run.1 with
  | Ok true =>
      ∃ l pn, get_root_instance error = inr (VDict l) ∧ get_property error = inr pn ∧
              is_Some ((store run.2 !!! l : pydict) !! pn)
  | Raised _ => False
  | _ => store run.2 = store σ
  end.
Proof.
  intros run. pose proof (surjective_pairing run) as H. unfold run at 1 in H.
  destruct (resolve_default_store _ _ _ _ H) as [[E Hr]|(l&pn&value&σ2&Hl&Hp&_&E&Hr)].
  - destruct (run.1) as [[]|e|e] eqn:Hrun; try done.
    destruct (resolve_default_silent _ _ _ _ H) as [_ Hnr]. by apply (Hnr e).
  - rewrite Hr. exists l, pn. repeat split; try done. rewrite E.
    by rewrite written_lookup.
Qed.

(** *** The keywords of a schema, one at a time *)

(** What the extended validator does for one entry of the schema. *)
Definition keyword (c : consumer) (inst : val) (schema : json) (path : list string)
    (wrap : option (json * val)) (kv : string * json) : M unit :=
  let '(k, v) := kv in
  if String.eqb k "type" then emit ask c wrap (type_draft4 v inst schema path)
  else if String.eqb k "enum" then
    bind get_state (fun σ => emit ask c wrap (enum (store σ) v inst schema path))
  else if String.eqb k "required" then required_default_d4 ask c v inst schema path
  else if String.eqb k "properties" then
    set_defaults ask c
      (fun x sub p => validator_iter_errors ask c x sub (path ++ [p]) (Some (schema, inst)))
      v inst schema path
  else if is_other k then throw (OutsideFragment k)
  else ret tt.

Lemma validator_iter_errors_unfold c inst kvs path wrap :
  validator_iter_errors ask c inst (JDict kvs) path wrap =
  if bool_decide (is_Some (assoc "$ref" kvs)) then throw (OutsideFragment "$ref")
  else for_each (keyword c inst (JDict kvs) path wrap) kvs.
Proof. reflexivity. Qed.

(** Every error of a keyword of the base engine carries the schema it was
    found in. *)
Lemma type_draft4_schema v inst schema path :
  Forall (fun e => e_schema e = schema) (type_draft4 v inst schema path).1.
Proof. unfold type_draft4. repeat case_match; by repeat constructor. Qed.

Lemma enum_schema h v inst schema path :
  Forall (fun e => e_schema e = schema) (enum h v inst schema path).1.
Proof. unfold enum. repeat case_match; by repeat constructor. Qed.

Lemma with_root_schema wrap error : e_schema (with_root wrap error) = e_schema error.
Proof. unfold with_root. by repeat case_match. Qed.

Section On.
Context (R : state → state → Prop) `{!PreOrder R} (P : verror → Prop).
Context (good : json → Prop) (c : consumer).
Hypothesis Hclosed : ∀ schema sub, good schema → subschema_of sub schema → good sub.
Hypothesis Hhandle : ∀ error, good (e_schema error) → ensures R P (handle ask c error).

Lemma ensures_emit_on wrap schema s :
  good schema → Forall (fun e => e_schema e = schema) s.1 →
  ensures R P (emit ask c wrap s).
Proof.
  intros HS Hs. apply ensures_bind; [done| |intros; by apply ensures_finish].
  apply ensures_for_each; [done|]. intros e He. apply Hhandle.
  rewrite with_root_schema. rewrite Forall_forall in Hs. by rewrite (Hs e He).
Qed.

Lemma ensures_keyword_on inst kvs path wrap k v :
  good (JDict kvs) → (k, v) ∈ kvs →
  (∀ x sub p, subschema_of sub (JDict kvs) →
     ensures R P (validator_iter_errors ask c x sub (path ++ [p])
                    (Some (JDict kvs, inst)))) →
  ensures R P (keyword c inst (JDict kvs) path wrap (k, v)).
Proof.
  intros HS Hkv Hsub. unfold keyword.
  destruct (String.eqb k "type"); [apply (ensures_emit_on _ (JDict kvs)); [done|apply type_draft4_schema]|].
  destruct (String.eqb k "enum").
  { apply ensures_bind; [done|by apply ensures_get_state|].
    intros; apply (ensures_emit_on _ (JDict kvs)); [done|apply enum_schema]. }
  destruct (String.eqb k "required").
  { unfold required_default_d4. destruct (is_object inst); [|by apply ensures_ret].
    apply ensures_bind; [done|by apply ensures_lift|]. intros ps.
    apply ensures_for_each; [done|]. intros p _.
    apply ensures_bind; [done|by apply ensures_get_state|]. intros σ.
    apply ensures_bind; [done|by apply ensures_lift|].
    intros []; [by apply ensures_ret|by apply Hhandle]. }
  destruct (String.eqb k "properties").
  2: { destruct (is_other k); [by apply ensures_throw|by apply ensures_ret]. }
  unfold set_defaults, validate_properties, default_signals.
  destruct v as [| | | | |props|]; try by apply ensures_throw.
  apply ensures_bind; [done| |].
  { apply ensures_for_each; [done|]. intros [p sub] _.
    apply ensures_bind; [done|by apply ensures_get_state|]. intros σ.
    apply ensures_bind; [done|by apply ensures_lift|].
    intros []; [by apply ensures_ret|].
    apply ensures_bind; [done|by apply ensures_lift|].
    intros []; [by apply Hhandle|by apply ensures_ret]. }
  intros _. destruct (is_object inst); [|by apply ensures_ret].
  apply ensures_for_each; [done|]. intros [p sub] Hp.
  apply ensures_bind; [done|by apply ensures_get_state|]. intros σ.
  destruct (has_key _ _ _) as [|[]]; try by apply ensures_ret.
  destruct (getitem _ _ _); try by apply ensures_ret.
  apply Hsub. by exists kvs, k, props, p.
Qed.

Lemma ensures_validator_iter_errors_on schema :
  good schema →
  ∀ inst path wrap, ensures R P (validator_iter_errors ask c inst schema path wrap).
Proof.
  induction schema as [schema IH] using schema_ind. intros HS inst path wrap.
  destruct schema as [| | | | |kvs|]; try by apply ensures_throw.
  rewrite validator_iter_errors_unfold. case_bool_decide; [by apply ensures_throw|].
  apply ensures_for_each; [done|]. intros [k v] Hkv.
  apply ensures_keyword_on; [done..|].
  intros x sub p Hs. apply IH; [done|]. by eapply Hclosed.
Qed.

End On.

(** The same for one keyword, whatever the schema. *)
Lemma ensures_keyword (R : state → state → Prop) `{!PreOrder R} (P : verror → Prop)
    c inst kvs path wrap kv :
  (∀ error, ensures R P (handle ask c error)) →
  kv ∈ kvs → ensures R P (keyword c inst (JDict kvs) path wrap kv).
Proof.
  intros Hh Hkv. destruct kv as [k v].
  apply (ensures_keyword_on R P (fun _ => True)); try done.
  intros. by apply ensures_validator_iter_errors.
Qed.

(** A loop that ran to its end ran every step to its end. *)
Lemma for_each_split {A} (f : A → M unit) (l1 l2 : list A) (x : A) (σ σ' : state) :
  for_each f (l1 ++ x :: l2) σ = (Ok tt, σ') →
  ∃ σ1 σ2, for_each f l1 σ = (Ok tt, σ1) ∧ f x σ1 = (Ok tt, σ2) ∧
           for_each f l2 σ2 = (Ok tt, σ').
Proof.
  revert σ. induction l1 as [|y l1 IH]; intros σ H; simpl in H.
  - apply bind_inv in H as [([]&σ2&H1&H2)|[(e&_&?)|(e&_&?)]]; [|done..].
    exists σ, σ2. done.
  - apply bind_inv in H as [([]&σa&H1&H2)|[(e&_&?)|(e&_&?)]]; [|done..].
    destruct (IH _ H2) as (σ1&σ2&?&?&?). exists σ1, σ2. split; [|done].
    simpl. unfold bind. by rewrite H1.
Qed.

(** *** What the orchestrator never does to the document *)

(** The property is in the container. *)
Definition present (σ : state) (l : loc) (prop : string) : Prop :=
  is_Some ((store σ !!! l : pydict) !! prop).

(** No dict leaves the store and no property leaves its dict. *)
Definition keeps_properties (σ σ' : state) : Prop :=
  dom (store σ) ⊆ dom (store σ') ∧ ∀ l prop, present σ l prop → present σ' l prop.

#[local] Instance keeps_properties_preorder : PreOrder keeps_properties.
Proof.
  split; [by intros σ|].
  intros σ1 σ2 σ3 [? H12] [? H23]. split; [by etrans|]. intros l p Hp. by apply H23, H12.
Qed.

Lemma keeps_properties_same (σ σ' : state) :
  store σ' = store σ → keeps_properties σ σ'.
Proof. intros E. unfold keeps_properties, present. by rewrite E. Qed.

Lemma written_keeps_properties l pn v (σ : state) :
  keeps_properties σ (written l pn v σ).
Proof.
  split.
  - unfold written. cbn [store with_store]. rewrite dom_insert. set_solver.
  - intros l0 p0 Hp. unfold present.
    destruct (decide ((l0, p0) = (l, pn))) as [[= -> ->]|Hne].
    + by rewrite written_lookup.
    + by rewrite written_lookup_ne.
Qed.

Lemma yield_store c error (σ σ' : state) r :
  yield_ c error σ = (r, σ') → store σ' = store σ.
Proof. destruct c; by intros [= <- <-]. Qed.

Lemma yield_from_store c s (σ σ' : state) r :
  yield_from c s σ = (r, σ') → store σ' = store σ.
Proof.
  intros H.
  by destruct (yield_from_yields anything c s σ σ' r ltac:(by apply Forall_true) H)
    as [(?&_) _].
Qed.

Lemma handle_keeps_properties c error :
  ensures keeps_properties anything (handle ask c error).
Proof.
  intros σ r σ' H. split; [|done]. rewrite handle_unfold in H.
  destruct (is_extended error);
    [|by apply keeps_properties_same; eapply yield_store].
  destruct (get_property error) as [e|pn]; [by injection H as <- <-|].
  destruct (get_property_schema error) as [e|sub]; [by injection H as <- <-|].
  destruct (get_root_instance error) as [e|inst]; [by injection H as <- <-|].
  destruct (if is_required error then has_default_key sub else inr true)
    as [e|[]]; [by injection H as <- <-|
                |by apply keeps_properties_same; eapply yield_store].
  destruct (_resolve_default ask error σ) as [rr σ1] eqn:Hres.
  assert (keeps_properties σ σ1) as H1.
  { destruct (resolve_default_store _ _ _ _ Hres) as [[E _]|(l&p&value&σ2&_&_&E&->&_)].
    - by apply keeps_properties_same.
    - etrans; [apply keeps_properties_same; exact E|apply written_keeps_properties]. }
  destruct rr as [b|e|e]; try by injection H as <- <-.
  etrans; [exact H1|]. apply keeps_properties_same.
  destruct (has_key (store σ1) inst pn) as [e|present0]; [by injection H as <- <-|].
  destruct (is_required error && negb present0); [by eapply yield_store|].
  destruct present0; [|by injection H as <- <-].
  destruct (getitem (store σ1) inst pn); [by injection H as <- <-|].
  by eapply yield_from_store.
Qed.

Theorem properties_are_never_removed c schema inst (σ : state) :
  let run := iter_errors ask c schema inst σ in
  dom (store σ) ⊆ dom (store run.2) ∧
  ∀ l prop, is_Some ((store σ !!! l : pydict) !! prop) →
            is_Some ((store run.2 !!! l : pydict) !! prop).
Proof.
  intros run. pose proof (surjective_pairing run) as H. unfold run at 1 in H.
  unfold iter_errors, bind, set_questions, set_keys in H. cbn beta iota in H.
  by destruct (ensures_validator_iter_errors keeps_properties anything c
                 (handle_keeps_properties c) _ _ _ _ _ _ _ H) as [? _].
Qed.

(** A property schema with a default block is resolved, whatever the
    error. *)
Lemma has_default_block (b : bool) s (d : json) :
  assoc "default" s = Some d →
  (if b then has_default_key (JDict s) else inr true) = inr true.
Proof.
  intros Hd. destruct b; [|done]. cbn. rewrite Hd. by rewrite bool_decide_eq_true_2.
Qed.

(** *** A document that was completed *)

Lemma assoc_elem_of {A} (k : string) (kvs : list (string * A)) (v : A) :
  assoc k kvs = Some v → (k, v) ∈ kvs.
Proof.
  induction kvs as [|[k' v'] kvs IH]; [done|]. simpl.
  destruct (String.eqb_spec k k') as [->|_].
  - intros [= ->]. left.
  - intros H. right. by apply IH.
Qed.

Lemma signal_getters cls keyword prop inst schema path :
  is_signal cls →
  let error := signal cls keyword prop inst schema path in
  is_extended error = true ∧ get_property error = inr prop ∧
  get_root_instance error = inr inst ∧ get_property_path error = inr (path ++ [prop]).
Proof. by intros [-> | ->]. Qed.

(** A signal that was handled to the end, for a property with a default
    block: the property is in the container. *)
Lemma handle_ok_present c cls keyword prop l schema path s d (σ σ' : state) :
  is_signal cls →
  let error := signal cls keyword prop (VDict l) schema path in
  get_property_schema error = inr (JDict s) → assoc "default" s = Some (JDict d) →
  handle ask c error σ = (Ok tt, σ') → present σ' l prop.
Proof.
  intros Hcls error Hsub Hd H.
  destruct (signal_getters cls keyword prop (VDict l) schema path Hcls)
    as (Hext&Hpn&Hinst&Hpath). fold error in Hext, Hpn, Hinst, Hpath.
  rewrite handle_unfold, Hext, Hpn, Hsub, Hinst in H.
  rewrite (has_default_block _ _ _ Hd) in H.
  destruct (_resolve_default ask error σ) as [[b|e|e] σ1] eqn:Hres; try done.
  assert (present σ1 l prop) as Hp.
  { rewrite (resolve_default_unfold _ _ _ _ _ _ Hpath Hpn Hsub Hinst) in Hres.
    apply bind_inv in Hres as [(entry&σa&Hlq&Hres)|[(?&?&?)|(?&?&?)]]; try done.
    destruct (lookup_question_entry _ _ _ _ _ _ _ Hd Hlq) as [[question dv] ->].
    apply bind_inv in Hres as [(value&σb&_&Hres)|[(?&?&?)|(?&?&?)]]; try done.
    destruct (value_of value) as [e|v]; [done|]. injection Hres as _ <-.
    unfold present. by rewrite written_lookup. }
  unfold has_key in H. rewrite bool_decide_eq_true_2 in H by exact Hp.
  rewrite andb_false_r in H.
  destruct (getitem (store σ1) (VDict l) prop); [done|].
  unfold present. by rewrite (yield_from_store _ _ _ _ _ H).
Qed.

(** A required signal that [validate] handled to the end. *)
Lemma handle_required_ok_present keyword prop l schema path (σ σ' : state) :
  handle ask FailFast (signal RequiredError keyword prop (VDict l) schema path) σ
  = (Ok tt, σ') →
  present σ' l prop.
Proof.
  intros H. rewrite handle_unfold in H. cbn [is_extended signal e_class] in H.
  change (get_property (signal RequiredError keyword prop (VDict l) schema path))
    with (@inr pyexn _ prop) in H.
  change (get_root_instance (signal RequiredError keyword prop (VDict l) schema path))
    with (@inr pyexn _ (VDict l)) in H.
  change (is_required (signal RequiredError keyword prop (VDict l) schema path))
    with true in H.
  destruct (get_property_schema _) as [e|sub]; [done|]. cbn [andb] in H.
  destruct (has_default_key sub) as [e|[]]; [done| |done].
  destruct (_resolve_default ask _ σ) as [[b|e|e] σ1]; try done.
  unfold has_key in H. case_bool_decide as Hp; [|done]. cbn [negb] in H.
  destruct (getitem (store σ1) (VDict l) prop); [done|].
  unfold present. by rewrite (yield_from_store _ _ _ _ _ H).
Qed.

Lemma default_signals_keep c props inst schema path :
  ensures keeps_properties anything (default_signals ask c props inst schema path).
Proof.
  unfold default_signals. repeat first [apply handle_keeps_properties | ensures_step].
Qed.

Lemma default_signals_complete c l kvs props path prop s d todo :
  assoc "properties" kvs = Some (JDict props) → assoc prop props = Some (JDict s) →
  assoc "default" s = Some (JDict d) →
  (prop, JDict s) ∈ todo →
  ∀ σ σ' : state,
    default_signals ask c todo (VDict l) (JDict kvs) path σ = (Ok tt, σ') →
    present σ' l prop.
Proof.
  intros Hprops Hs Hd. induction todo as [|[p0 sub0] todo IH]; intros Hin σ σ' H.
  { by apply elem_of_nil in Hin. }
  unfold default_signals in H. cbn [for_each] in H. fold (@for_each W) in H.
  apply bind_inv in H as [([]&σa&Hstep&Hrest)|[(?&_&?)|(?&_&?)]]; try done.
  change (default_signals ask c todo (VDict l) (JDict kvs) path σa = (Ok tt, σ'))
    in Hrest.
  apply elem_of_cons in Hin as [[= <- <-]|Hin]; [|by eapply IH].
  destruct (default_signals_keep c todo (VDict l) (JDict kvs) path _ _ _ Hrest)
    as [[_ Hkeep] _].
  apply Hkeep.
  unfold bind, get_state, lift, ret, has_key, str_in in Hstep. cbn beta iota in Hstep.
  case_bool_decide as Hp; [by injection Hstep as <-|].
  rewrite Hd, bool_decide_eq_true_2 in Hstep by done.
  eapply (handle_ok_present c DefaultHandler); [by left| |exact Hd|exact Hstep].
  by apply (signal_property_schema _ _ _ _ _ props); [left|..].
Qed.

Lemma required_signals_keep ps inst schema path c :
  ensures keeps_properties anything
    (for_each
       (fun prop =>
          bind get_state (fun σ =>
          bind (lift (has_key (store σ) inst prop)) (fun present =>
          if present then ret tt
          else handle ask c (signal RequiredError "required" prop inst schema path))))
       ps).
Proof. repeat first [apply handle_keeps_properties | ensures_step]. Qed.

Lemma required_default_d4_complete l v schema path ps prop :
  required_names v = inr ps → prop ∈ ps →
  ∀ σ σ' : state,
    required_default_d4 ask FailFast v (VDict l) schema path σ = (Ok tt, σ') →
    present σ' l prop.
Proof.
  intros Hps Hin σ σ' H. unfold required_default_d4 in H. cbn [is_object] in H.
  rewrite Hps in H. unfold lift at 1, bind at 1, ret at 1 in H. cbn beta iota in H.
  clear Hps. revert σ H. induction ps as [|p0 ps IH]; intros σ H.
  { by apply elem_of_nil in Hin. }
  cbn [for_each] in H.
  apply bind_inv in H as [([]&σa&Hstep&Hrest)|[(?&_&?)|(?&_&?)]]; try done.
  apply elem_of_cons in Hin as [->|Hin]; [|by eapply IH].
  destruct (required_signals_keep ps (VDict l) schema path FailFast _ _ _ Hrest)
    as [[_ Hkeep] _].
  apply Hkeep.
  unfold bind at 1, get_state at 1 in Hstep. cbn beta iota in Hstep.
  unfold bind, lift, ret, has_key in Hstep. cbn beta iota in Hstep.
  case_bool_decide as Hp; [by injection Hstep as <-|].
  by eapply handle_required_ok_present.
Qed.

(** Keywords that follow keep what is in the container. *)
Lemma keywords_keep c l kvs path wrap post (σ σ' : state) :
  (∀ kv, kv ∈ post → kv ∈ kvs) →
  for_each (keyword c (VDict l) (JDict kvs) path wrap) post σ = (Ok tt, σ') →
  ∀ prop, present σ l prop → present σ' l prop.
Proof.
  intros Hsub Hpost.
  assert (ensures keeps_properties anything
            (for_each (keyword c (VDict l) (JDict kvs) path wrap) post)) as He.
  { apply ensures_for_each; [apply _|]. intros kv' Hkv'.
    apply ensures_keyword; [apply _|apply handle_keeps_properties|]. by apply Hsub. }
  destruct (He _ _ _ Hpost) as [[_ Hk] _]. intros prop. apply Hk.
Qed.

(** When [validate] has run over an object to the end, every required
    property is in it. *)
Lemma required_properties_present l kvs path wrap (σ σ' : state) v ps prop :
  validator_iter_errors ask FailFast (VDict l) (JDict kvs) path wrap σ = (Ok tt, σ') →
  ("required", v) ∈ kvs → required_names v = inr ps → prop ∈ ps →
  present σ' l prop.
Proof.
  rewrite validator_iter_errors_unfold. case_bool_decide as Href; [done|].
  intros H Hin Hps Hprop.
  destruct (list_elem_of_split _ _ Hin) as (pre&post&Hkvs).
  rewrite Hkvs in H at 2.
  destruct (for_each_split _ _ _ _ _ _ H) as (σ1&σ2&_&Hstep&Hpost).
  eapply keywords_keep; [|exact Hpost|].
  { intros kv Hkv. rewrite Hkvs. apply elem_of_app. right. by right. }
  unfold keyword in Hstep.
  change (String.eqb "required" "type") with false in Hstep.
  change (String.eqb "required" "enum") with false in Hstep.
  change (String.eqb "required" "required") with true in Hstep.
  cbv iota in Hstep. by eapply required_default_d4_complete.
Qed.

(** When the extended validator has run over an object to the end, every
    property with a default block is in it. *)
Lemma default_properties_present c l kvs path wrap (σ σ' : state) props prop s d :
  validator_iter_errors ask c (VDict l) (JDict kvs) path wrap σ = (Ok tt, σ') →
  assoc "properties" kvs = Some (JDict props) →
  assoc prop props = Some (JDict s) → assoc "default" s = Some (JDict d) →
  present σ' l prop.
Proof.
  rewrite validator_iter_errors_unfold. case_bool_decide as Href; [done|].
  intros H Hprops Hs Hd.
  destruct (list_elem_of_split _ _ (assoc_elem_of _ _ _ Hprops)) as (pre&post&Hkvs).
  rewrite Hkvs in H at 2.
  destruct (for_each_split _ _ _ _ _ _ H) as (σ1&σ2&_&Hstep&Hpost).
  eapply keywords_keep; [|exact Hpost|].
  { intros kv Hkv. rewrite Hkvs. apply elem_of_app. right. by right. }
  unfold keyword in Hstep.
  change (String.eqb "properties" "type") with false in Hstep.
  change (String.eqb "properties" "enum") with false in Hstep.
  change (String.eqb "properties" "required") with false in Hstep.
  change (String.eqb "properties" "properties") with true in Hstep.
  cbv iota in Hstep. unfold set_defaults in Hstep.
  apply bind_inv in Hstep as [([]&σa&Hsig&Hval)|[(?&_&?)|(?&_&?)]]; try done.
  assert (present σa l prop) as Hp.
  { eapply default_signals_complete; [exact Hprops|exact Hs|exact Hd| |exact Hsig].
    by apply assoc_elem_of. }
  assert (ensures keeps_properties anything
            (validate_properties
               (fun x sub p =>
                  validator_iter_errors ask c x sub (path ++ [p])
                    (Some (JDict kvs, VDict l))) props (VDict l))) as He.
  { unfold validate_properties. cbn [is_object].
    repeat first
      [ apply ensures_validator_iter_errors; [apply _|apply handle_keeps_properties]
      | ensures_step ]. }
  destruct (He _ _ _ Hval) as [[_ Hk] _]. by apply Hk.
Qed.

Theorem completed_object_has_its_defaults_and_required_properties
    c l kvs path wrap (σ σ' : state) :
  validator_iter_errors ask c (VDict l) (JDict kvs) path wrap σ = (Ok tt, σ') →
  (∀ props prop s d,
     assoc "properties" kvs = Some (JDict props) →
     assoc prop props = Some (JDict s) → assoc "default" s = Some (JDict d) →
     is_Some ((store σ' !!! l : pydict) !! prop)) ∧
  (c = FailFast →
   ∀ v ps prop,
     ("required", v) ∈ kvs → required_names v = inr ps → prop ∈ ps →
     is_Some ((store σ' !!! l : pydict) !! prop)).
Proof.
  intros H. split.
  - intros props prop s d. by eapply default_properties_present.
  - intros -> v ps prop. by eapply required_properties_present.
Qed.

(** *** What the caller receives *)

(** The errors that reach the caller: violations found by the base engine,
    and required errors for properties without a default block. *)
Definition reported (e : verror) : Prop :=
  e_class e = ValidationError ∨
  (e_class e = RequiredError ∧
   ∀ s d, get_property_schema e = inr (JDict s) → assoc "default" s ≠ Some (JDict d)).

Definition receives (σ σ' : state) : Prop :=
  ∃ ys, yielded σ' = yielded σ ++ ys ∧ Forall reported ys.

#[local] Instance receives_preorder : PreOrder receives.
Proof.
  split.
  - intros σ. exists []. by rewrite app_nil_r.
  - intros σ1 σ2 σ3 (ys&E1&H1) (zs&E2&H2). exists (ys ++ zs).
    split; [|by apply Forall_app]. rewrite E2, E1. by rewrite app_assoc.
Qed.

Lemma receives_same (σ σ' : state) : yielded σ' = yielded σ → receives σ σ'.
Proof. intros E. exists []. by rewrite app_nil_r. Qed.

Lemma yield_receives c error (σ σ' : state) r :
  reported error → yield_ c error σ = (r, σ') →
  receives σ σ' ∧ ∀ e, r = Raised e → reported e.
Proof.
  intros HP H. destruct c; injection H as <- <-.
  - split; [|done]. exists [error]. split; [done|by constructor].
  - split; [by apply receives_same|]. by intros ? [= <-].
Qed.

(** With a default block the resolution never ends undecided. *)
Lemma resolve_default_not_false error s d (σ σ1 : state) :
  get_property_schema error = inr (JDict s) → assoc "default" s = Some (JDict d) →
  _resolve_default ask error σ ≠ (Ok false, σ1).
Proof.
  intros Hsub Hd H. unfold _resolve_default in H. rewrite Hsub in H.
  destruct (get_property_path error) as [e|path]; [done|].
  destruct (get_property error) as [e|pn]; [done|].
  unfold lift at 1 2 3, bind at 1 2 3, ret at 1 2 3 in H. cbn beta iota in H.
  apply bind_inv in H as [(entry&σa&Hlq&H)|[(?&?&?)|(?&?&?)]]; try done.
  destruct (lookup_question_entry _ _ _ _ _ _ _ Hd Hlq) as [[question dv] ->].
  unfold lift, bind, ret, throw, get_state, set_store in H. cbn beta iota in H.
  repeat (case_match; simplify_eq/=).
Qed.

Lemma handle_reported c error : ensures receives reported (handle ask c error).
Proof.
  intros σ r σ' H. rewrite handle_unfold in H.
  destruct (is_extended error) eqn:Hext.
  2: { eapply yield_receives; [|exact H]. left.
       unfold is_extended in Hext. by destruct (e_class error). }
  destruct (get_property error) as [e|pn] eqn:Hpn; [by injection H as <- <-|].
  destruct (get_property_schema error) as [e|sub] eqn:Hsub; [by injection H as <- <-|].
  destruct (get_root_instance error) as [e|inst] eqn:Hinst; [by injection H as <- <-|].
  assert (∀ σ1 x, yield_from c (JsonSchema.iter_errors (store σ1) x sub []) σ1 = (r, σ') →
            yielded σ1 = yielded σ →
            receives σ σ' ∧ ∀ e, r = Raised e → reported e) as Hyf.
  { intros σ1 x Hx Hy.
    destruct (yield_from_yields reported c _ _ _ _
                ltac:(eapply Forall_impl; [apply iter_errors_plain|by left]) Hx)
      as [(_&_&_&_&_&_&_&ys&E&HP) Hr].
    split; [|done]. exists ys. by rewrite E, Hy. }
  destruct (is_required error) eqn:Hreq.
  2: { cbn [andb] in H.
       destruct (_resolve_default ask error σ) as [rr σ1] eqn:Hres.
       destruct (resolve_default_silent _ _ _ _ Hres) as [Hy Hnr].
       destruct rr as [b|e|e]; [|injection H as <- <-; split; [by apply receives_same|done]
                                |by destruct (Hnr e)].
       destruct (has_key (store σ1) inst pn) as [e|[]];
         [injection H as <- <-; split; [by apply receives_same|done]| |
          injection H as <- <-; split; [by apply receives_same|done]].
       destruct (getitem (store σ1) inst pn) as [e|x];
         [injection H as <- <-; split; [by apply receives_same|done]|].
       by eapply Hyf. }
  assert (e_class error = RequiredError) as Hcls.
  { unfold is_required in Hreq. by destruct (e_class error). }
  cbn [andb] in H. destruct (has_default_key sub) as [e|[]] eqn:Hk.
  { injection H as <- <-. split; [by apply receives_same|done]. }
  2: { eapply yield_receives; [|exact H]. right. split; [done|].
       intros s d Hs Hd. rewrite Hsub in Hs. injection Hs as ->.
       cbn in Hk. rewrite Hd in Hk.
       by rewrite bool_decide_eq_true_2 in Hk. }
  destruct (_resolve_default ask error σ) as [rr σ1] eqn:Hres.
  destruct (resolve_default_silent _ _ _ _ Hres) as [Hy Hnr].
  destruct rr as [b|e|e]; [|injection H as <- <-; split; [by apply receives_same|done]
                           |by destruct (Hnr e)].
  destruct (has_key (store σ1) inst pn) as [e|present0] eqn:Hkey;
    [injection H as <- <-; split; [by apply receives_same|done]|].
  destruct present0; cbn [negb] in H.
  - destruct (getitem (store σ1) inst pn) as [e|x];
      [injection H as <- <-; split; [by apply receives_same|done]|].
    by eapply Hyf.
  - assert (reported error) as HP.
    { right. split; [done|]. intros s d Hs Hd. exfalso.
      destruct (resolve_default_store _ _ _ _ Hres)
        as [[_ Hb]|(l&p&v&σ2&Hl&Hp&_&->&_)].
      - destruct b; [done|]. by eapply (resolve_default_not_false error s d).
      - rewrite Hinst in Hl. rewrite Hpn in Hp. simplify_eq.
        unfold has_key in Hkey. rewrite written_lookup in Hkey.
        by rewrite bool_decide_eq_true_2 in Hkey. }
    destruct (yield_receives _ _ _ _ _ HP H) as [(ys&E&HPs) Hr].
    split; [|done]. exists ys. by rewrite E, Hy.
Qed.

Theorem caller_receives_violations_and_unresolved_required_errors
    c schema inst (σ : state) :
  let run := iter_errors ask c schema inst σ in
  (∃ ys, yielded run.2 = yielded σ ++ ys ∧ Forall reported ys) ∧
  (∀ e, run.1 = Raised e → reported e).
Proof.
  intros run. pose proof (surjective_pairing run) as H. unfold run at 1 in H.
  unfold iter_errors, bind, set_questions, set_keys in H. cbn beta iota in H.
  exact (ensures_validator_iter_errors receives reported c (handle_reported c)
           _ _ _ _ _ _ _ H).
Qed.

(** *** The value that was written is checked *)

Lemma with_yielded_nil (σ : state) : with_yielded (yielded σ ++ []) σ = σ.
Proof. destruct σ. unfold with_yielded. cbn. by rewrite app_nil_r. Qed.

Lemma for_each_yield_collect (l : list verror) (σ : state) :
  for_each (yield_ Collect) l σ = (Ok tt, with_yielded (yielded σ ++ l) σ).
Proof.
  revert σ. induction l as [|e l IH]; intros σ; simpl.
  - by rewrite with_yielded_nil.
  - unfold bind. cbn. rewrite IH. cbn. by rewrite <- app_assoc.
Qed.

Lemma yield_from_collect s (σ : state) :
  yield_from Collect s σ =
  (match s.2 with Some e => Exn e | None => Ok tt end,
   with_yielded (yielded σ ++ s.1) σ).
Proof.
  unfold yield_from, bind. rewrite for_each_yield_collect. unfold finish.
  by destruct (s.2).
Qed.

Lemma yield_from_failfast s (σ : state) :
  yield_from FailFast s σ =
  match s.1 with
  | e :: _ => (Raised e, σ)
  | [] => (match s.2 with Some e => Exn e | None => Ok tt end, σ)
  end.
Proof.
  unfold yield_from, bind, finish. destruct s as [[|e l] [x|]]; done.
Qed.

(** With a default block, a resolution that ends has written the
    property. *)
Lemma resolve_default_written error path pn s d l (σ σ1 : state) b :
  get_property_path error = inr path → get_property error = inr pn →
  get_property_schema error = inr (JDict s) → get_root_instance error = inr (VDict l) →
  assoc "default" s = Some (JDict d) →
  _resolve_default ask error σ = (Ok b, σ1) →
  ∃ v, (store σ1 !!! l : pydict) !! pn = Some v.
Proof.
  intros Hpath Hpn Hsub Hinst Hd Hres.
  rewrite (resolve_default_unfold _ _ _ _ _ _ Hpath Hpn Hsub Hinst) in Hres.
  apply bind_inv in Hres as [(entry&σa&Hlq&Hres)|[(?&?&?)|(?&?&?)]]; try done.
  destruct (lookup_question_entry _ _ _ _ _ _ _ Hd Hlq) as [[question dv] ->].
  apply bind_inv in Hres as [(value&σb&_&Hres)|[(?&?&?)|(?&?&?)]]; try done.
  destruct (value_of value) as [e|v]; [done|]. injection Hres as _ <-.
  exists v. apply written_lookup.
Qed.

Theorem written_value_is_validated c error path pn s d l (σ σ' : state) r :
  is_extended error = true →
  get_property_path error = inr path → get_property error = inr pn →
  get_property_schema error = inr (JDict s) → get_root_instance error = inr (VDict l) →
  assoc "default" s = Some (JDict d) →
  handle ask c error σ = (r, σ') → (∀ e, r ≠ Exn e) →
  ∃ v, (store σ' !!! l : pydict) !! pn = Some v ∧
    let found := JsonSchema.iter_errors (store σ') v (JDict s) [] in
    (c = Collect → r = Ok tt ∧ yielded σ' = yielded σ ++ found.1) ∧
    (c = FailFast →
     yielded σ' = yielded σ ∧
     (r = Ok tt → conformant (store σ') v (JDict s)) ∧
     (∀ e, r = Raised e → head found.1 = Some e)).
Proof.
  intros Hext Hpath Hpn Hsub Hinst Hd H Hne.
  rewrite handle_unfold, Hext, Hpn, Hsub, Hinst in H.
  rewrite (has_default_block _ _ _ Hd) in H.
  destruct (_resolve_default ask error σ) as [rr σ1] eqn:Hres.
  destruct (resolve_default_silent _ _ _ _ Hres) as [Hy Hnr].
  destruct rr as [b|e|e]; [|injection H as <- <-; by destruct (Hne e)|by destruct (Hnr e)].
  destruct (resolve_default_written _ _ _ _ _ _ _ _ _ Hpath Hpn Hsub Hinst Hd Hres)
    as [v Hv].
  unfold has_key, getitem in H. rewrite Hv, bool_decide_eq_true_2 in H by done.
  rewrite andb_false_r in H.
  pose proof (yield_from_store _ _ _ _ _ H) as Hst. exists v. rewrite Hst.
  split; [done|]. cbv zeta.
  set (found := JsonSchema.iter_errors (store σ1) v (JDict s) []) in *.
  split; intros ->.
  - rewrite yield_from_collect in H. injection H as <- <-.
    destruct (found.2) as [e|]; [by destruct (Hne e)|]. cbn. by rewrite Hy.
  - rewrite yield_from_failfast in H. unfold conformant. fold found.
    destruct found as [[|e ys] [x|]]; cbn in H; injection H as <- <-;
      try (by destruct (Hne x)); repeat split; try done; by intros ? [= ->].
Qed.

(** *** A static default during a run *)



Section Static.
Context (c : consumer) (l : loc) (path : list string) (prop : string)
  (s d : list (string * json)) (static : json).
Hypothesis Hd : assoc "default" s = Some (JDict d).
Hypothesis Hnq : assoc "question" d = None.
Hypothesis Hval : assoc "value" d = Some static.










(** [step A]: a run that starts where [A] holds ends where [A] holds. *)
Definition step (A : state → Prop) (σ σ' : state) : Prop := A σ → A σ'.

#[local] Instance step_preorder A : PreOrder (step A).
Proof.
  split; [intros σ H; exact H|]. intros σ1 σ2 σ3 H12 H23 H. apply H23, H12, H.
Qed.














End Static.
(** *** The claims about resolution *)

(** C5, amended.  Whatever the error that is resolved (a default signal, a
    required error or a violation inside a property), when the answer of
    the question is null, null is what the loop body writes at the
    property; the caller then receives exactly the base engine's
    violations of null against the property's schema, all of them in a
    collecting run and the first of them from [validate], and not the
    error that was resolved. *)
Theorem null_answer_is_written c error path pn s l id q dv (σ σ1 σ2 : state) :
  is_extended error = true →
  get_property_path error = inr path → get_property error = inr pn →
  get_property_schema error = inr (JDict s) →
  get_root_instance error = inr (VDict l) →
  is_Some (assoc "default" s) →
  lookup_question error path (JDict s) σ = (Ok (Some (Some (id, q), dv)), σ1) →
  _ask ask path error q σ1 = (Ok JNull, σ2) →
  ∃ r σ',
    handle ask c error σ = (r, σ') ∧
    store σ' = <[l := <[pn := VNull]> (store σ !!! l)]> (store σ) ∧
    (store σ' !!! l : pydict) !! pn = Some VNull ∧
    let found := JsonSchema.iter_errors (store σ') VNull (JDict s) [] in
    Forall (fun e => e_class e = ValidationError) found.1 ∧
    match c with
    | Collect =>
        yielded σ' = yielded σ ++ found.1 ∧
        r = match found.2 with Some e => Exn e | None => Ok tt end
    | FailFast =>
        yielded σ' = yielded σ ∧
        r = match found.1 with
            | e :: _ => Raised e
            | [] => match found.2 with Some e => Exn e | None => Ok tt end
            end
    end.
Proof.
  intros Hext Hpath Hpn Hsub Hinst [dflt Hd] Hlq Hask.
  destruct (lookup_question_fields _ _ _ _ _ _ Hlq) as (Hs1&_&_&_&_&Hy1&_).
  destruct (ask_changes _ _ _ _ _ _ Hask) as (_&(Hs2&_&_&Hy2)&_).
  assert (_resolve_default ask error σ = (Ok true, written l pn VNull σ2)) as Hres.
  { rewrite (resolve_default_unfold _ _ _ _ _ _ Hpath Hpn Hsub Hinst).
    unfold bind at 1. rewrite Hlq. unfold bind. by rewrite Hask. }
  set (σw := written l pn VNull σ2) in *.
  assert (store σw = <[l := <[pn := VNull]> (store σ !!! l)]> (store σ)) as Hsw.
  { unfold σw, written. cbn [store with_store]. by rewrite Hs2, Hs1. }
  assert (yielded σw = yielded σ) as Hyw by (unfold σw, written; cbn; congruence).
  pose proof (written_lookup l pn VNull σ2) as Hv. fold σw in Hv.
  assert (handle ask c error σ =
          yield_from c (JsonSchema.iter_errors (store σw) VNull (JDict s) []) σw) as Hh.
  { rewrite handle_unfold, Hext, Hpn, Hsub, Hinst, (has_default_block _ _ _ Hd), Hres.
    unfold has_key, getitem. rewrite Hv.
    rewrite bool_decide_eq_true_2 by done. by rewrite andb_false_r. }
  destruct c.
  - rewrite yield_from_collect in Hh. eexists _, _. split; [exact Hh|].
    cbn [store with_yielded yielded]. repeat split; try done.
    + apply iter_errors_plain.
    + by rewrite Hyw.
  - rewrite yield_from_failfast in Hh.
    destruct (JsonSchema.iter_errors (store σw) VNull (JDict s) []) as [[|e ys] x] eqn:Hf;
      cbn [fst snd] in Hh; eexists _, _; (split; [exact Hh|]);
      rewrite Hf; repeat split; try done.
    pose proof (iter_errors_plain (JDict s) (store σw) VNull []) as Hp.
    by rewrite Hf in Hp.
Qed.

(** The cache entry made for a default block with a question: the
    question is made from the block and logged. *)
Lemma lookup_question_asking error path s d (σ : state) :
  _questions σ !! path = None →
  assoc "default" s = Some (JDict d) → is_Some (assoc "question" d) →
  lookup_question error path (JDict s) σ =
  match __init__ d (or_none (assoc "type" s)) (or_none (assoc "enum" s))
          (is_required error) (negb (is_default_handler error)) with
  | inl e => (Exn e, σ)
  | inr q =>
      let entry := Some (Some (length (made σ), q), or_none (assoc "value" d)) in
      (Ok entry,
       with_questions (<[path := entry]> (_questions σ))
         (with_made (made σ ++ [(path, q)]) σ))
  end.
Proof.
  intros Hq Hd Hn. unfold lookup_question, bind, get_state. cbn beta iota.
  rewrite Hq. simpl. rewrite Hd. simpl.
  rewrite bool_decide_eq_true_2 by done.
  unfold _make_question, lift, bind, ret, throw, log_made.
  by destruct (__init__ _ _ _ _ _).
Qed.

(** The cache entry made where the default is no mapping. *)
Lemma lookup_question_no_mapping error path s dflt (σ : state) :
  _questions σ !! path = None →
  assoc "default" s = Some dflt → (∀ d, dflt ≠ JDict d) → (∀ l, dflt ≠ JRef l) →
  lookup_question error path (JDict s) σ =
  (Ok None, with_questions (<[path := None]> (_questions σ)) σ).
Proof.
  intros Hq Hd Hnd Hnr. unfold lookup_question, bind, get_state. cbn beta iota.
  rewrite Hq. simpl. rewrite Hd. simpl.
  destruct dflt; try done; [by destruct (Hnd kvs)|by destruct (Hnr l)].
Qed.

(** C2, amended.  A required property is absent from its container and
    the [required] keyword has signalled it.  If its schema has no
    [default] the required error goes to the caller, and so it does when
    the [default] is not a mapping (for the first resolution of the path).
    If the [default] is a mapping the required error never does: unless an
    exception ends the resolution, the resolved value (the static value of
    the block, or the answer of the question made from it) is what the
    property holds afterwards, and the caller receives exactly the base
    engine's violations of that value against the property's schema: all
    of them in a collecting run, the first of them from [validate].  For a
    whole run: every error the caller receives is a violation found by the
    base engine or a required error of a property without a default
    mapping, and when [validate] returns every required property of the
    object is present. *)
Theorem required_property_is_resolved c l kvs prop sub path (σ : state) :
  let error := signal RequiredError "required" prop (VDict l) (JDict kvs) path in
  get_property_schema error = inr sub →
  (has_default_key sub = inr false → handle ask c error σ = yield_ c error σ) ∧
  (∀ s dflt,
     sub = JDict s → assoc "default" s = Some dflt →
     (∀ d, dflt ≠ JDict d) → (∀ l', dflt ≠ JRef l') →
     _questions σ !! (path ++ [prop]) = None →
     (store σ !!! l : pydict) !! prop = None →
     handle ask c error σ =
     yield_ c error (with_questions (<[path ++ [prop] := None]> (_questions σ)) σ)) ∧
  (∀ s d r σ',
     sub = JDict s → assoc "default" s = Some (JDict d) →
     _questions σ !! (path ++ [prop]) = None →
     handle ask c error σ = (r, σ') → (∀ e, r ≠ Exn e) →
     ∃ value v,
       (assoc "question" d = None → value = or_none (assoc "value" d)) ∧
       (is_Some (assoc "question" d) →
        ∃ q σb,
          __init__ d (or_none (assoc "type" s)) (or_none (assoc "enum" s)) true true
          = inr q ∧
          _ask ask (path ++ [prop]) error q
            (with_questions
               (<[path ++ [prop] :=
                    Some (Some (length (made σ), q), or_none (assoc "value" d))]>
                  (_questions σ))
               (with_made (made σ ++ [(path ++ [prop], q)]) σ))
          = (Ok value, σb)) ∧
       value_of value = inr v ∧
       store σ' = <[l := <[prop := v]> (store σ !!! l)]> (store σ) ∧
       let found := JsonSchema.iter_errors (store σ') v (JDict s) [] in
       match c with
       | Collect => yielded σ' = yielded σ ++ found.1 ∧ r = Ok tt
       | FailFast =>
           yielded σ' = yielded σ ∧
           r = match found.1 with e :: _ => Raised e | [] => Ok tt end
       end) ∧
  (∀ inst (σ0 : state),
     let run := iter_errors ask c (JDict kvs) inst σ0 in
     (∃ ys, yielded run.2 = yielded σ0 ++ ys ∧ Forall reported ys) ∧
     (∀ e, run.1 = Raised e → reported e)) ∧
  (∀ (σ0 σ' : state) required ps p,
     validate ask (JDict kvs) (VDict l) σ0 = (Ok tt, σ') →
     ("required", required) ∈ kvs → required_names required = inr ps → p ∈ ps →
     is_Some ((store σ' !!! l : pydict) !! p)).
Proof.
  intros error Hsub.
  assert (is_extended error = true ∧ get_property error = inr prop ∧
          get_root_instance error = inr (VDict l) ∧
          get_property_path error = inr (path ++ [prop]) ∧
          is_required error = true) as (Hext&Hpn&Hinst&Hpath&Hreq) by done.
  split; [|split; [|split; [|split]]].
  - intros Hno. by rewrite handle_unfold, Hext, Hpn, Hsub, Hinst, Hreq, Hno.
  - intros s dflt -> Hd Hnd Hnr Hq Habs.
    rewrite handle_unfold, Hext, Hpn, Hsub, Hinst, (has_default_block _ _ _ Hd).
    rewrite (resolve_default_unfold _ _ _ _ _ _ Hpath Hpn Hsub Hinst).
    unfold bind at 1. rewrite (lookup_question_no_mapping _ _ _ _ _ Hq Hd Hnd Hnr).
    unfold ret, has_key. cbn [store with_questions]. rewrite Habs.
    rewrite bool_decide_eq_false_2 by (by intros [? ?]). by rewrite Hreq.
  - intros s d r σ' -> Hd Hq H Hne.
    rewrite handle_unfold, Hext, Hpn, Hsub, Hinst, (has_default_block _ _ _ Hd) in H.
    destruct (_resolve_default ask error σ) as [rr σ1] eqn:Hres.
    destruct (resolve_default_silent _ _ _ _ Hres) as [Hy Hnr].
    destruct rr as [b|e|e]; [|injection H as <- <-; by destruct (Hne e)|by destruct (Hnr e)].
    rewrite (resolve_default_unfold _ _ _ _ _ _ Hpath Hpn Hsub Hinst) in Hres.
    assert (∃ value v σ2,
              (assoc "question" d = None → value = or_none (assoc "value" d)) ∧
              (is_Some (assoc "question" d) →
               ∃ q σb,
                 __init__ d (or_none (assoc "type" s)) (or_none (assoc "enum" s)) true true
                 = inr q ∧
                 _ask ask (path ++ [prop]) error q
                   (with_questions
                      (<[path ++ [prop] :=
                           Some (Some (length (made σ), q), or_none (assoc "value" d))]>
                         (_questions σ))
                      (with_made (made σ ++ [(path ++ [prop], q)]) σ))
                 = (Ok value, σb)) ∧
              value_of value = inr v ∧ store σ2 = store σ ∧
              σ1 = written l prop v σ2) as (value&v&σ2&Hstatic&Hasked&Hv&Hs2&->).
    { destruct (assoc "question" d) as [qq|] eqn:Hqq.
      - unfold bind at 1 in Hres.
        rewrite (lookup_question_asking _ _ _ _ _ Hq Hd) in Hres by (by rewrite Hqq).
        rewrite Hreq in Hres. change (negb (is_default_handler error)) with true in Hres.
        destruct (__init__ d _ _ true true) as [e|q] eqn:Hinit; [done|].
        cbn zeta in Hres.
        apply bind_inv in Hres as [(value&σb&Hask&Hres)|[(?&?&?)|(?&?&?)]]; try done.
        destruct (value_of value) as [e|v] eqn:Hv; [done|]. injection Hres as _ Hσ1.
        exists value, v, σb. split; [done|]. split; [by eauto|]. split; [done|].
        split; [|done]. by destruct (ask_changes _ _ _ _ _ _ Hask) as (_&(->&_)&_).
      - unfold bind at 1 in Hres.
        rewrite (lookup_question_static _ _ _ _ _ Hq Hd Hqq) in Hres.
        unfold bind, ret in Hres.
        destruct (value_of (or_none (assoc "value" d))) as [e|v] eqn:Hv; [done|].
        injection Hres as _ Hσ1.
        match type of Hσ1 with
        | written _ _ _ ?s = _ => exists (or_none (assoc "value" d)), v, s
        end.
        split; [done|]. split; [by intros [? ?]|]. by split. }
    exists value, v. split; [done|]. split; [done|]. split; [done|].
    pose proof (written_lookup l prop v σ2) as Hw.
    unfold has_key, getitem in H. rewrite Hw, bool_decide_eq_true_2 in H by done.
    rewrite andb_false_r in H.
    pose proof (yield_from_store _ _ _ _ _ H) as Hst. rewrite Hst.
    split; [unfold written; cbn [store with_store]; by rewrite Hs2|].
    cbv zeta.
    set (found := JsonSchema.iter_errors (store (written l prop v σ2)) v (JDict s) []) in *.
    destruct c.
    + rewrite yield_from_collect in H. injection H as <- <-.
      destruct (found.2) as [e|]; [by destruct (Hne e)|].
      by rewrite <- Hy.
    + rewrite yield_from_failfast in H.
      destruct found as [[|e ys] [x|]]; cbn [fst snd] in *;
        injection H as <- <-; try (by destruct (Hne x)); by rewrite <- Hy.
  - intros inst σ0 run. pose proof (surjective_pairing run) as H. unfold run at 1 in H.
    unfold iter_errors, bind, set_questions, set_keys in H. cbn beta iota in H.
    exact (ensures_validator_iter_errors receives reported c (handle_reported c)
             _ _ _ _ _ _ _ H).
  - intros σ0 σ' required ps p H Hin Hps Hp.
    unfold validate, iter_errors, bind, set_questions, set_keys in H. cbn beta iota in H.
    by eapply (required_properties_present l kvs [] None).
Qed.


End Facts.
End QueristValidatorFacts.

(** ** The account schema at work *)

Module AccountFacts.
Import Py JsonSchema Question QueristValidator QueristValidatorFacts Account.

(** Closed facts are settled by evaluation. *)
Ltac evaluate := cbv zeta; repeat split; vm_compute; reflexivity.

Example acme_loaded : inject acme ∅ = (VDict 2, acme_store).
Proof. evaluate. Qed.

Example account_type_question_made :
  __init__ account_type_default JNull account_type_enum true true
  = inr account_type_question.
Proof. reflexivity. Qed.

(** The whole loop on the record, the user choosing the second type: both
    properties are filled, the answer is recorded under the account name. *)
Example acme_completed :
  let run := validate ConsoleQuestion.ask account_schema (VDict 2)
               (start ["1"] acme_store) in
  run.1 = Ok tt ∧
  store run.2 !! 1%positive
    = Some (<["initial_amount" := VInt 0]> (<["account_type" := VStr "CC"]> acme_fields)) ∧
  recorded run.2 ["fields"] (inr "acme") "account_type" = Some (JStr "CC") ∧
  world run.2 = [].
Proof. evaluate. Qed.



(** The counterexample to C2: [account_type] is required and absent, its
    schema has a default block with a question, the user answers with the
    escape command; [validate] raises for the property. *)
Lemma validate_raises_with_default_block :
  acme_fields !! "account_type" = None ∧
  assoc "default" account_type_keywords = Some (JDict account_type_default) ∧
  (validate ConsoleQuestion.ask account_schema (VDict 2)
     (start ["\q"] acme_store)).1
  = Raised (plain "enum" VNull (JDict account_type_keywords) []).
Proof. evaluate. Qed.

Lemma required_property_is_resolved_witness :
  let error := fields_signal RequiredError "required" "account_type" in
  let σ := start ["\q"] acme_store in
  let run := handle ConsoleQuestion.ask FailFast error σ in
  ∃ value v,
    _ask ConsoleQuestion.ask ["fields"; "account_type"] error account_type_question
      (with_questions
         {[ ["fields"; "account_type"] := Some (Some (0%nat, account_type_question), JNull) ]}
         (with_made [(["fields"; "account_type"], account_type_question)] σ))
    = (Ok value, with_questions
                   {[ ["fields"; "account_type"] :=
                        Some (Some (0%nat, account_type_question), JNull) ]}
                   (with_made [(["fields"; "account_type"], account_type_question)]
                      (with_asked [(account_type_question, Some (VStr "acme"))]
                         (with_keys {[ ["fields"] := Some "account_name" ]}
                            (with_answers {[ ["fields"] := {[ inr "acme" := ∅ ]} ]}
                               (start [] acme_store)))))) ∧
    value_of value = inr v ∧
    store run.2 = <[1%positive := <["account_type" := v]> acme_fields]> acme_store ∧
    yielded run.2 = [] ∧
    run.1 = Raised (plain "enum" v (JDict account_type_keywords) []).
Proof.
  intros error σ run.
  destruct (proj1 (proj2 (proj2 (required_property_is_resolved ConsoleQuestion.ask
                                   FailFast 1%positive fields_keywords "account_type"
                                   (JDict account_type_keywords) ["fields"] σ
                                   ltac:(vm_compute; reflexivity))))
              account_type_keywords account_type_default run.1 run.2
              eq_refl ltac:(vm_compute; reflexivity) ltac:(vm_compute; reflexivity)
              (surjective_pairing _)
              ltac:(intros e; vm_compute; discriminate))
    as (value&v&_&Hask&Hv&Hst&Hy&Hr).
  destruct (Hask ltac:(vm_compute; eauto)) as (q&σb&Hq&Hrun).
  vm_compute in Hq. injection Hq as <-.
  exists value, v.
  assert (value = JNull) as ->.
  { vm_compute in Hrun. by injection Hrun as <- _. }
  vm_compute in Hv. injection Hv as <-.
  split; [vm_compute; reflexivity|]. split; [reflexivity|].
  split; [rewrite Hst; vm_compute; reflexivity|].
  split; [exact Hy|]. rewrite Hr. vm_compute. reflexivity.
Defined.

Lemma recorded_answer_is_replayed_witness :
  ∃ σ',
    _ask ConsoleQuestion.ask ["fields"; "account_type"]
      (fields_signal RequiredError "required" "account_type") account_type_question
      (answered ["OW"] acme_store) = (Ok (JStr "CC"), σ') ∧
    asked σ' = [] ∧ world σ' = ["OW"].
Proof.
  destruct (proj1 (recorded_answer_is_replayed ConsoleQuestion.ask
                     ["fields"; "account_type"] account_type_question "account_type"
                     (inr "acme") (JStr "CC") (VStr "CC") (answered ["OW"] acme_store)
                     (answered ["OW"] acme_store)
                     ltac:(vm_compute; reflexivity) ltac:(reflexivity)
                     (later_refl _ _))
              (fields_signal RequiredError "required" "account_type") (VStr "acme")
              ltac:(vm_compute; reflexivity) ltac:(vm_compute; reflexivity)
              ltac:(vm_compute; reflexivity))
    as (σ'&H&Ha&Hw&_).
  exists σ'. rewrite H, Ha, Hw. repeat split.
Defined.

(** The counterexample to C4: two records of the same shape are validated
    one after the other; the question for [account_type] is made in each
    call, and the cache of the second call holds the second object. *)
Lemma question_is_made_again_by_the_next_call :
  let path := ["fields"; "account_type"] in
  let σ1 := (validate ConsoleQuestion.ask account_schema (VDict 2)
               (start ["OW"] acme_store)).2 in
  let second := inject acme (store σ1) in
  let σ2 := (validate ConsoleQuestion.ask account_schema second.1
               (with_store second.2 σ1)).2 in
  made σ1 = [(path, account_type_question)] ∧
  _questions σ1 !! path = Some (Some (Some (0%nat, account_type_question), JNull)) ∧
  made σ2 = [(path, account_type_question); (path, account_type_question)] ∧
  _questions σ2 !! path = Some (Some (Some (1%nat, account_type_question), JNull)).
Proof. evaluate. Qed.

Lemma question_is_made_once_per_call_witness :
  let σ := start ["OW"] acme_store in
  ∃ new,
    made (iter_errors ConsoleQuestion.ask Collect account_schema (VDict 2) σ).2
      = made σ ++ new ∧
    NoDup new.*1.
Proof.
  intros σ.
  exact (question_is_made_once_per_call ConsoleQuestion.ask Collect account_schema
           (VDict 2) σ _ _ (surjective_pairing _)).
Defined.

(** The counterexample to C5: the required [account_type] is absent and
    the user answers with the escape command, here and when the property is
    visited again.  The property is not left unset, it is null; the caller
    receives two violations of [enum] and no required error. *)
Lemma null_answer_is_not_left_unset :
  let run := iter_errors ConsoleQuestion.ask Collect account_schema (VDict 2)
               (start ["\q"; "\q"] acme_store) in
  let violation := plain "enum" VNull (JDict account_type_keywords) [] in
  run.1 = Ok tt ∧
  (store run.2 !!! 1%positive : pydict) !! "account_type" = Some VNull ∧
  yielded run.2 = [violation; violation] ∧
  recorded run.2 ["fields"] (inr "acme") "account_type" = None.
Proof. evaluate. Qed.

Lemma null_answer_is_written_witness :
  let error := fields_signal RequiredError "required" "account_type" in
  let σ := start ["\q"] acme_store in
  ∃ r σ',
    handle ConsoleQuestion.ask FailFast error σ = (r, σ') ∧
    store σ' = <[1%positive := <["account_type" := VNull]> acme_fields]> acme_store ∧
    yielded σ' = [] ∧
    r = Raised (plain "enum" VNull (JDict account_type_keywords) []).
Proof.
  intros error σ.
  set (path := ["fields"; "account_type"]).
  set (σ1 := (lookup_question error path (JDict account_type_keywords) σ).2).
  set (σ2 := (_ask ConsoleQuestion.ask path error account_type_question σ1).2).
  destruct (null_answer_is_written ConsoleQuestion.ask FailFast error path "account_type"
              account_type_keywords 1%positive 0%nat account_type_question JNull σ σ1 σ2
              ltac:(reflexivity) ltac:(reflexivity) ltac:(reflexivity)
              ltac:(vm_compute; reflexivity) ltac:(reflexivity)
              ltac:(vm_compute; eauto) ltac:(vm_compute; reflexivity)
              ltac:(vm_compute; reflexivity))
    as (r&σ'&H&Hst&_&_&Hy&Hr).
  exists r, σ'. split; [exact H|]. split; [rewrite Hst; vm_compute; reflexivity|].
  split; [exact Hy|]. rewrite Hr, Hst. vm_compute. reflexivity.
Defined.

(** C6, at the failing input: the schema marks no key field, the document
    lacks [comment].  [validate] ends in [KeyError] before the question is
    asked; the line the user would have typed is still in the input. *)
Theorem no_key_field_raises_key_error :
  let run := validate ConsoleQuestion.ask comment_schema (VDict 1)
               (start ["no comment"] {[ 1%positive := ∅ ]}) in
  _get_key comment_properties = inr None ∧
  run.1 = Exn KeyError ∧ asked run.2 = [] ∧ world run.2 = ["no comment"] ∧
  store run.2 = {[ 1%positive := ∅ ]}.
Proof. evaluate. Qed.

(** The record that has everything. *)
Definition complete_store : heap := (inject complete ∅).2.

Lemma conformant_document_is_left_alone_witness :
  let σ := answered ["OW"] complete_store in
  iter_errors ConsoleQuestion.ask Collect account_schema (VDict 2) σ = (Ok tt, reset σ).
Proof.
  intros σ.
  refine (proj1 (conformant_document_is_left_alone ConsoleQuestion.ask Collect
                   account_schema (VDict 2) σ _ _)).
  - unfold conformant. vm_compute. reflexivity.
  - vm_compute. reflexivity.
Defined.

(** Why a populated document has to be an object where properties are
    declared: [set_defaults] tests [prop not in instance] on whatever the
    instance is, and a number has no members. *)
Example set_defaults_on_a_number :
  conformant ∅ (VInt 5) comment_schema ∧
  (validate ConsoleQuestion.ask comment_schema (VInt 5) (start [] ∅)).1 = Exn TypeError.
Proof. unfold conformant. evaluate. Qed.

Lemma recorded_answers_are_not_null_witness :
  let σ := start ["\q"; "CC"] acme_store in
  ∃ σ',
    _ask ConsoleQuestion.ask ["fields"; "account_type"]
      (fields_signal RequiredError "required" "account_type") account_type_question σ
    = (Ok JNull, σ') ∧
    answers_nonnull σ' ∧
    recorded σ' ["fields"] (inr "acme") "account_type" = None.
Proof.
  intros σ.
  assert (answers_nonnull σ) as Hn.
  { intros kp k p a H. vm_compute in H. discriminate. }
  destruct (proj2 (recorded_answers_are_not_null ConsoleQuestion.ask σ σ Hn
                     (later_refl _ _))
              ["fields"; "account_type"]
              (fields_signal RequiredError "required" "account_type")
              account_type_question (VStr "acme") (inr "acme") "account_type"
              ltac:(vm_compute; reflexivity) ltac:(vm_compute; reflexivity)
              ltac:(vm_compute; reflexivity) ltac:(vm_compute; reflexivity)
              ltac:(vm_compute; reflexivity))
    as (σ'&H&Hn'&Hr&_).
  exists σ'. rewrite H. repeat split; assumption.
Defined.

End AccountFacts.
